(** * bzlmod: extension usages of a MODULE.bazel file

    A shallow embedding of [edit/bzlmod/bzlmod.go] and the properties of
    its exported operations.  The syntax tree of package [build] is
    embedded as an inductive type with the fields the code reads; Go
    slices whose sharing matters are modelled with their backing arrays. *)

From stdpp Require Import gmap strings list.
From Stdlib Require Import ZArith Lia.

Set Warnings "-register-all,-clear-no-such-hyp".

(** ** The syntax tree of package [build]

    [build.Expr] is an interface; [NilExpr] is its nil value, and
    [OtherExpr] stands for every node kind that the code of this package
    never inspects (lists, dictionaries, binary expressions, ...).  The
    field [Pos] of a call is the position of its closing parenthesis
    ([End.Pos.Byte]). *)

Inductive Expr : Type :=
| NilExpr
| Ident (Name : string)
| StringExpr (Value : string)
| LiteralExpr (Token : string)
| DotExpr (X : Expr) (Name : string)
| AssignExpr (LHS : Expr) (Op : string) (RHS : Expr)
| Call (c : CallExpr)
| OtherExpr (kind : string) (sub : list Expr)
with CallExpr : Type :=
| mkCallExpr (X : Expr) (List : list Expr) (Pos : Z).

Definition X (c : CallExpr) : Expr := let '(mkCallExpr x _ _) := c in x.
Definition List (c : CallExpr) : list Expr := let '(mkCallExpr _ l _) := c in l.
Definition Pos (c : CallExpr) : Z := let '(mkCallExpr _ _ p) := c in p.

(** ** Parsing of single statements *)

(** [parseBooleanKeywordArg], lines 285-302. *)
Definition parseBooleanKeywordArg (arg : Expr) (name : string) : bool :=
  match arg with
  | AssignExpr lhs _ rhs =>
      match lhs with
      | Ident argName =>
          if negb (String.eqb argName name) then false
          else
            match rhs with
            | Ident argValue => if String.eqb argValue "False" then false else true
            | _ => true
            end
      | _ => false
      end
  | _ => false
  end.

(** The five results of [parseUseExtension]. *)
Record UseExtension : Type := mkUseExtension {
  proxy : string;
  bzlFile : string;
  name : string;
  dev : bool;
  isolate : bool
}.

(** The zero values of the named results, returned by every bare [return]. *)
Definition noUseExtension : UseExtension := mkUseExtension "" "" "" false false.

(** The loop of lines 275-278 over [call.List[2:]]. *)
Fixpoint parseFlags (args : list Expr) (dev isolate : bool) : bool * bool :=
  match args with
  | [] => (dev, isolate)
  | arg :: rest =>
      parseFlags rest
        (dev || parseBooleanKeywordArg arg "dev_dependency")
        (isolate || parseBooleanKeywordArg arg "isolate")
  end.

(** [parseUseExtension], lines 243-281. *)
Definition parseUseExtension (stmt : Expr) : UseExtension :=
  match stmt with
  | AssignExpr (Ident lhs) _ (Call call) =>
      match X call with
      | Ident fn =>
          if negb (String.eqb fn "use_extension") then noUseExtension
          else
            match List call with
            | StringExpr bzlFileExpr :: StringExpr nameExpr :: rest =>
                let '(dev, isolate) := parseFlags rest false false in
                mkUseExtension lhs bzlFileExpr nameExpr dev isolate
            | _ => noUseExtension
            end
      | _ => noUseExtension
      end
  | _ => noUseExtension
  end.

(** [parseTag], lines 304-317. *)
Definition parseTag (stmt : Expr) : string :=
  match stmt with
  | Call call =>
      match X call with
      | DotExpr (Ident x) _ => x
      | _ => ""
      end
  | _ => ""
  end.

(** [repoFromUseRepoArg], lines 197-209. *)
Definition repoFromUseRepoArg (arg : Expr) : string :=
  match arg with
  | StringExpr v => v
  | AssignExpr _ _ (StringExpr v) => v
  | _ => ""
  end.

(** ** The collaborators

    The functions of packages [build], [labels] and [path] that
    [bzlmod.go] calls are not part of this file; the operations are
    stated over any implementation of them. *)

Record Label : Type := mkLabel {
  Repository : string;
  Package : string;
  Target : string
}.

Inductive FileType : Type := TypeDefault | TypeBuild | TypeWorkspace | TypeBzl | TypeModule.

(** A [build.File] as the read-only operations see it: [Stmt] is the
    sequence of statements read through the slice [f.Stmt]. *)
Record File : Type := mkFile {
  Path : string;
  Stmt : list Expr;
  Type_ : FileType
}.

Class Collaborators : Type := {
  Rule : Type;
  (** [f.Rules(kind)] *)
  Rules : File -> string -> list Rule;
  (** [rule.Call], [rule.Kind()], [rule.ExplicitName()], [rule.AttrString(key)] *)
  RuleCall : Rule -> CallExpr;
  Kind : Rule -> string;
  ExplicitName : Rule -> string;
  AttrString : Rule -> string -> string;
  (** [labels.ParseRelative(input, pkg)], [labels.Parse(input)], [label.Format()] *)
  ParseRelative : string -> string -> Label;
  Parse : string -> Label;
  Format : Label -> string;
  (** [path.Join(a, b)] *)
  Join : string -> string -> string
}.

Section ExtensionUsages.
Context `{Collaborators}.

(** [getApparentModuleName], lines 213-225. *)
Definition getApparentModuleName (f : File) : string :=
  fold_left
    (fun apparentName module =>
       let repoName := AttrString module "repo_name" in
       if negb (String.eqb repoName "") then repoName
       else
         let name := AttrString module "name" in
         if negb (String.eqb name "") then name else apparentName)
    (Rules f "module") "".

(** [normalizeLabelString], lines 228-241. *)
Definition normalizeLabelString (rawLabel apparentModuleName : string) : string :=
  let label := ParseRelative rawLabel "" in
  let label :=
    if String.eqb (Repository label) ""
    then mkLabel apparentModuleName (Package label) (Target label)
    else label in
  Format label.

(** The loop of [Proxies], lines 36-45, with the slice [proxies] as
    accumulator. *)
Fixpoint ProxiesLoop (stmts : list Expr) (apparentModuleName extBzlFile extName : string)
    (dev_ : bool) (proxies : list string) : list string :=
  match stmts with
  | [] => proxies
  | stmt :: rest =>
      let u := parseUseExtension stmt in
      if String.eqb (proxy u) "" || negb (Bool.eqb (dev u) dev_) || isolate u
      then ProxiesLoop rest apparentModuleName extBzlFile extName dev_ proxies
      else
        let bzlFile_ := normalizeLabelString (bzlFile u) apparentModuleName in
        if String.eqb bzlFile_ extBzlFile && String.eqb (name u) extName
        then ProxiesLoop rest apparentModuleName extBzlFile extName dev_ (proxies ++ [proxy u])
        else ProxiesLoop rest apparentModuleName extBzlFile extName dev_ proxies
  end.

(** [Proxies], lines 31-48. *)
Definition Proxies (f : File) (rawExtBzlFile extName : string) (dev_ : bool) : list string :=
  let apparentModuleName := getApparentModuleName f in
  let extBzlFile := normalizeLabelString rawExtBzlFile apparentModuleName in
  ProxiesLoop (Stmt f) apparentModuleName extBzlFile extName dev_ [].

(** The loop of [AllProxies], lines 58-66; the nil result is the empty
    list. *)
Fixpoint AllProxiesLoop (f : File) (stmts : list Expr) (proxy_ : string) : list string :=
  match stmts with
  | [] => []
  | stmt :: rest =>
      let u := parseUseExtension stmt in
      if String.eqb (proxy u) proxy_
      then
        if isolate u then [proxy_]
        else Proxies f (bzlFile u) (name u) (dev u)
      else AllProxiesLoop f rest proxy_
  end.

(** [AllProxies], lines 57-68. *)
Definition AllProxies (f : File) (proxy_ : string) : list string :=
  AllProxiesLoop f (Stmt f) proxy_.

End ExtensionUsages.

(** ** Results of operations that can panic *)

Inductive Panic : Type :=
| PanicMsg (msg : string)
| NilDereference
| SliceBounds.

Inductive outcome (A : Type) : Type :=
| Ok (a : A)
| Panics (p : Panic).
Arguments Ok {A} a.
Arguments Panics {A} p.

Definition bind {A B : Type} (m : outcome A) (k : A -> outcome B) : outcome B :=
  match m with
  | Ok a => k a
  | Panics p => Panics p
  end.

Notation "'let!' x ':=' m 'in' k" := (bind m (fun x => k))
  (at level 10, x pattern, m at level 100, k at level 200).

(** ** Call nodes shared by pointer

    [AddRepoUsages] and [RemoveRepoUsages] receive pointers to call nodes
    and assign to their [List] field.  The nodes live in a store
    addressed by index; the same address may occur several times in
    [useRepos].  An address outside the store stands for a nil pointer.
    The argument slices of distinct nodes do not overlap (the parser
    builds each of them separately), so [List] is kept as a value. *)

Abbreviation store := (list CallExpr).

Definition deref (st : store) (p : nat) : outcome CallExpr :=
  match st !! p with
  | Some c => Ok c
  | None => Panics NilDereference
  end.

(** [useRepo.List = l] *)
Definition setList (st : store) (p : nat) (l : list Expr) : outcome store :=
  let! c := deref st p in
  Ok (<[p := mkCallExpr (X c) l (Pos c)]> st).

(** Lines 139-141: the inner loop over [useRepo.List[1:]]. *)
Definition seenArgs (args : list Expr) (seen : gset string) : gset string :=
  fold_left (fun seen arg => {[repoFromUseRepoArg arg]} ∪ seen) args seen.

(** Lines 134-142. *)
Fixpoint seenLoop (st : store) (useRepos : list nat) (seen : gset string)
    : outcome (gset string) :=
  match useRepos with
  | [] => Ok seen
  | useRepo :: rest =>
      let! c := deref st useRepo in
      match List c with
      | [] => seenLoop st rest seen
      | _ :: args => seenLoop st rest (seenArgs args seen)
      end
  end.

(** The loop of [getLastUseRepo], lines 187-191; [None] is the nil
    pointer the variable starts with. *)
Fixpoint getLastUseRepoLoop (st : store) (useRepos : list nat) (lastUseRepo : option nat)
    : outcome (option nat) :=
  match useRepos with
  | [] => Ok lastUseRepo
  | useRepo :: rest =>
      match lastUseRepo with
      | None => getLastUseRepoLoop st rest (Some useRepo)
      | Some l =>
          let! c := deref st useRepo in
          let! cl := deref st l in
          if (Pos c >? Pos cl)%Z
          then getLastUseRepoLoop st rest (Some useRepo)
          else getLastUseRepoLoop st rest (Some l)
      end
  end.

(** [getLastUseRepo], lines 185-193. *)
Definition getLastUseRepo (st : store) (useRepos : list nat) : outcome (option nat) :=
  getLastUseRepoLoop st useRepos None.

(** Lines 145-152. *)
Fixpoint appendLoop (st : store) (lastUseRepo : option nat) (seen : gset string)
    (repos : list string) : outcome store :=
  match repos with
  | [] => Ok st
  | repo :: rest =>
      if bool_decide (repo ∈ seen) then appendLoop st lastUseRepo seen rest
      else
        match lastUseRepo with
        | None => Panics NilDereference
        | Some l =>
            let! c := deref st l in
            let! st' := setList st l (List c ++ [StringExpr repo]) in
            appendLoop st' lastUseRepo seen rest
        end
  end.

(** [AddRepoUsages], lines 125-153. *)
Definition AddRepoUsages (st : store) (useRepos : list nat) (repos : list string)
    : outcome store :=
  if Nat.eqb (length repos) 0 then Ok st
  else if Nat.eqb (length useRepos) 0 then Panics (PanicMsg "useRepos must not be empty")
  else
    let! seen := seenLoop st useRepos ∅ in
    let! lastUseRepo := getLastUseRepo st useRepos in
    appendLoop st lastUseRepo seen repos.

(** Lines 175-180, with the slice [args] as accumulator. *)
Fixpoint keptArgs (toRemove : gset string) (l : list Expr) (args : list Expr) : list Expr :=
  match l with
  | [] => args
  | arg :: rest =>
      let repo := repoFromUseRepoArg arg in
      if bool_decide (repo ∈ toRemove) then keptArgs toRemove rest args
      else keptArgs toRemove rest (args ++ [arg])
  end.

(** Lines 168-182.  [append(useRepo.List[:1], args...)] writes [args]
    behind the first cell of the node's own array, which has room for
    them. *)
Fixpoint removeLoop (st : store) (useRepos : list nat) (toRemove : gset string)
    : outcome store :=
  match useRepos with
  | [] => Ok st
  | useRepo :: rest =>
      let! c := deref st useRepo in
      match List c with
      | [] => removeLoop st rest toRemove
      | ext :: later =>
          let args := keptArgs toRemove later [] in
          let! st' := setList st useRepo (ext :: args) in
          removeLoop st' rest toRemove
      end
  end.

(** [RemoveRepoUsages], lines 158-183. *)
Definition RemoveRepoUsages (st : store) (useRepos : list nat) (repos : list string)
    : outcome store :=
  if Nat.eqb (length useRepos) 0 || Nat.eqb (length repos) 0 then Ok st
  else removeLoop st useRepos (list_to_set repos).

(** The arguments of the node at an address, empty for a nil pointer. *)
Definition argsAt (st : store) (p : nat) : list Expr :=
  match st !! p with
  | Some c => List c
  | None => []
  end.

(** ** Go slices over shared backing arrays

    [NewUseRepo] builds the new statement sequence with [append] on a
    prefix of [f.Stmt].  A slice is a window on a backing array; the
    arrays live in a heap addressed by index, and [append] writes into
    the array of its first argument whenever the capacity allows. *)

Record slice : Type := mkSlice {
  array : nat;
  offset : nat;
  len : nat;
  cap : nat
}.

Abbreviation heap := (list (list Expr)).

Definition cells (h : heap) (a : nat) : list Expr := default [] (h !! a).

(** The elements seen through a slice. *)
Definition contents (h : heap) (s : slice) : list Expr :=
  take (len s) (drop (offset s) (cells h (array s))).

(** The window lies within its array. *)
Definition slice_ok (h : heap) (s : slice) : Prop :=
  array s < length h ∧ len s ≤ cap s ∧ offset s + cap s ≤ length (cells h (array s)).

(** [s[:hi]] *)
Definition sliceTo (s : slice) (hi : nat) : outcome slice :=
  if bool_decide (hi ≤ cap s) then Ok (mkSlice (array s) (offset s) hi (cap s))
  else Panics SliceBounds.

(** [s[lo:]] *)
Definition sliceFrom (s : slice) (lo : nat) : outcome slice :=
  if bool_decide (lo ≤ len s)
  then Ok (mkSlice (array s) (offset s + lo) (len s - lo) (cap s - lo))
  else Panics SliceBounds.

(** Overwrite the cells from [pos] on with [xs]. *)
Definition write (pos : nat) (xs : list Expr) (arr : list Expr) : list Expr :=
  take pos arr ++ xs ++ drop (pos + length xs) arr.

(** A composite literal [[]build.Expr{...}]: a new array that the
    slice covers exactly. *)
Definition literal (h : heap) (xs : list Expr) : heap * slice :=
  (h ++ [xs], mkSlice (length h) 0 (length xs) (length xs)).

Section Append.
(** The capacity the runtime chooses when [append] has to grow a slice of
    capacity [old] to hold [needed] elements; it is at least [needed]. *)
Variable growslice : nat -> nat -> nat.

(** The built-in [append(s, xs...)]. *)
Definition append (h : heap) (s : slice) (xs : list Expr) : heap * slice :=
  let n := len s + length xs in
  if bool_decide (n ≤ cap s)
  then (<[array s := write (offset s + len s) xs (cells h (array s))]> h,
        mkSlice (array s) (offset s) n (cap s))
  else
    let newcap := Nat.max n (growslice (cap s) n) in
    (h ++ [contents h s ++ xs ++ replicate (newcap - n) NilExpr],
     mkSlice (length h) 0 n newcap).

(** A [build.File] in memory: [Stmt] is a slice. *)
Record FileObj : Type := mkFileObj {
  objPath : string;
  objStmt : slice;
  objType : FileType
}.

(** The file as the read-only operations see it. *)
Definition load (h : heap) (f : FileObj) : File :=
  mkFile (objPath f) (contents h (objStmt f)) (objType f).

(** The loop of [lastProxyUsage], lines 329-349. *)
Fixpoint lastProxyUsageLoop (stmts : list Expr) (i : Z) (proxiesSet : gset string)
    (lastUsage : Z) (lastProxy : string) : Z * string :=
  match stmts with
  | [] => (lastUsage, lastProxy)
  | stmt :: rest =>
      let proxy_ := proxy (parseUseExtension stmt) in
      if negb (String.eqb proxy_ "") && bool_decide (proxy_ ∈ proxiesSet)
      then lastProxyUsageLoop rest (i + 1) proxiesSet i proxy_
      else
        let proxy_ := parseTag stmt in
        if negb (String.eqb proxy_ "") && bool_decide (proxy_ ∈ proxiesSet)
        then lastProxyUsageLoop rest (i + 1) proxiesSet i proxy_
        else lastProxyUsageLoop rest (i + 1) proxiesSet lastUsage lastProxy
  end.

(** [lastProxyUsage], lines 322-352. *)
Definition lastProxyUsage (f : File) (proxies : list string) : Z * string :=
  lastProxyUsageLoop (Stmt f) 0 (list_to_set proxies) (-1) "".

(** [NewUseRepo], lines 104-119.  The result is the heap after the call,
    the returned file and the returned call ([None] for nil). *)
Definition NewUseRepo (h : heap) (f : FileObj) (proxies : list string)
    : outcome (heap * FileObj * option CallExpr) :=
  let '(lastUsage, proxy_) := lastProxyUsage (load h f) proxies in
  if (lastUsage =? -1)%Z then Ok (h, f, None)
  else
    let useRepo := mkCallExpr (Ident "use_repo") [Ident proxy_] 0 in
    let! head := sliceTo (objStmt f) (Z.to_nat (lastUsage + 1)) in
    let '(h1, lit) := literal h [Call useRepo] in
    let! tail := sliceFrom (objStmt f) (Z.to_nat (lastUsage + 1)) in
    let '(h2, inner) := append h1 lit (contents h1 tail) in
    let '(h3, stmt) := append h2 head (contents h2 inner) in
    Ok (h3, mkFileObj (objPath f) stmt TypeModule, Some useRepo).

End Append.

(** ** Apparent names across included fragments *)

Section ApparentNames.
Context `{Collaborators}.

(** The body of the loop of [collectApparentNamesAndIncludes],
    lines 407-430. *)
Definition collectStep (acc : gmap string string * list string) (dep : Rule)
    : gmap string string * list string :=
  let '(apparentNames, includeLabels) := acc in
  if String.eqb (ExplicitName dep) "" then
    match X (RuleCall dep) with
    | Ident ident =>
        if negb (String.eqb ident "include") then acc
        else
          match List (RuleCall dep) with
          | [StringExpr str] => (apparentNames, includeLabels ++ [str])
          | _ => acc
          end
    | _ => acc
    end
  else if negb (String.eqb (Kind dep) "module") && negb (String.eqb (Kind dep) "bazel_dep")
  then acc
  else
    let name := AttrString dep "name" in
    if negb (String.eqb name "") then
      let repoName := AttrString dep "repo_name" in
      if negb (String.eqb repoName "")
      then (<[name := repoName]> apparentNames, includeLabels)
      else (<[name := name]> apparentNames, includeLabels)
    else acc.

(** [collectApparentNamesAndIncludes], lines 402-434. *)
Definition collectApparentNamesAndIncludes (f : File) : gmap string string * list string :=
  fold_left collectStep (Rules f "") (∅, []).

(** Lines 392-396: the paths appended to [filesToProcess]. *)
Definition includePaths (includeLabels : list string) : list string :=
  map (fun includeLabel => let l := Parse includeLabel in Join (Package l) (Target l))
      includeLabels.

(** How a bounded run of the loop of [collectApparentNames] ends: the
    bound is reached, or the function returns a map ([None] for the nil
    map of line 386). *)
Inductive status : Type :=
| OutOfFuel
| Returned (apparentNames : option (gmap string string)).

(** The loop of [collectApparentNames], lines 377-397.  [fuel] bounds the
    number of iterations; the second component of the result logs the
    paths passed to [fileReader], in order.  Copying [names] into
    [apparentNames] entry by entry (lines 389-391) is the union that
    prefers [names]. *)
Fixpoint collectLoop (fuel : nat) (fileReader : string -> option File)
    (apparentNames : gmap string string) (seenFiles : gset string)
    (filesToProcess : list string) (reads : list string) : status * list string :=
  match fuel with
  | 0 => (OutOfFuel, reads)
  | S fuel =>
      match filesToProcess with
      | [] => (Returned (Some apparentNames), reads)
      | f :: filesToProcess =>
          if bool_decide (f ∈ seenFiles)
          then collectLoop fuel fileReader apparentNames seenFiles filesToProcess reads
          else
            match fileReader f with
            | None => (Returned None, reads ++ [f])
            | Some bf =>
                let '(names, includeLabels) := collectApparentNamesAndIncludes bf in
                collectLoop fuel fileReader (names ∪ apparentNames) ({[f]} ∪ seenFiles)
                  (filesToProcess ++ includePaths includeLabels) (reads ++ [f])
            end
      end
  end.

(** [collectApparentNames], lines 372-400. *)
Definition collectApparentNames (fuel : nat) (fileReader : string -> option File)
    (relPath : string) : status * list string :=
  collectLoop fuel fileReader ∅ ∅ [relPath] [].

(** The paths a fragment includes. *)
Definition includesOf (bf : File) : list string :=
  includePaths (snd (collectApparentNamesAndIncludes bf)).

(** What reading the fragment at a path costs: the iteration that reads
    it and one for each path it enqueues. *)
Definition cost (fileReader : string -> option File) (p : string) : nat :=
  match fileReader p with
  | Some bf => 2 + length (includesOf bf)
  | None => 0
  end.

(** The cost of the fragments not yet seen. *)
Definition weight (fileReader : string -> option File) (seenFiles : gset string)
    (files : list string) : nat :=
  sum_list (map (fun p => if bool_decide (p ∈ seenFiles) then 0 else cost fileReader p) files).

(** Iterations that suffice when every fragment the reader knows is among
    [files]. *)
Definition enoughFuel (fileReader : string -> option File) (files : list string) : nat :=
  2 + weight fileReader ∅ (remove_dups files).

End ApparentNames.

(** ** An implementation of the collaborators

    Used to run the operations on concrete manifests. *)

Module SpecModel.

(** Modelled from the spec: the accessors of a declaration of package
    [build] ([Rule.Kind]); a declaration is a top-level call such as
    [module(...)], [bazel_dep(...)] or [include(...)], and its kind is
    the name it invokes. *)
Definition Kind (r : CallExpr) : string :=
  match X r with
  | Ident n => n
  | _ => ""
  end.

(** Modelled from the spec: [File.Rules] of package [build]; the
    declarations of a manifest are its top-level calls in file order, all
    of them for the empty kind. *)
Definition Rules (f : File) (kind : string) : list CallExpr :=
  omap (fun stmt =>
          match stmt with
          | Call c => if String.eqb kind "" || String.eqb (Kind c) kind then Some c else None
          | _ => None
          end) (Stmt f).

(** Modelled from the spec: [Rule.AttrString] of package [build]; the
    string value of the keyword argument [key = "value"] of the
    declaration, empty when it is not set. *)
Fixpoint attrString (args : list Expr) (key : string) : string :=
  match args with
  | [] => ""
  | AssignExpr (Ident k) _ rhs :: rest =>
      if String.eqb k key
      then match rhs with StringExpr v => v | _ => "" end
      else attrString rest key
  | _ :: rest => attrString rest key
  end.

Definition AttrString (r : CallExpr) (key : string) : string := attrString (List r) key.

(** Modelled from the spec: [Rule.ExplicitName] of package [build]; the
    explicit name a declaration carries is its [name] attribute. *)
Definition ExplicitName (r : CallExpr) : string := AttrString r "name".

(** Split at the first occurrence of a separator. *)
Definition splitAt (sep s : string) : option (string * string) :=
  match String.index 0 sep s with
  | Some i =>
      Some (String.substring 0 i s,
            String.substring (i + String.length sep)
              (String.length s - (i + String.length sep)) s)
  | None => None
  end.

(** Modelled from the spec: [labels.ParseRelative] of package [labels],
    for the label grammar [@repo//pkg:target], [//pkg:target],
    [@//pkg:target], [:target] and the bare identifier, the last two
    relative to the package [pkg]. *)
Definition ParseRelative (input pkg : string) : Label :=
  let pkgTarget (rest : string) :=
    match splitAt ":" rest with
    | Some (p, t) => (p, t)
    | None => (rest, "")
    end in
  if String.prefix "@" input then
    match splitAt "//" (String.substring 1 (String.length input - 1) input) with
    | Some (repo, rest) => let '(p, t) := pkgTarget rest in mkLabel repo p t
    | None => mkLabel (String.substring 1 (String.length input - 1) input) "" ""
    end
  else if String.prefix "//" input then
    let '(p, t) := pkgTarget (String.substring 2 (String.length input - 2) input) in
    mkLabel "" p t
  else if String.prefix ":" input then
    mkLabel "" pkg (String.substring 1 (String.length input - 1) input)
  else mkLabel "" pkg input.

(** Modelled from the spec: [labels.Parse] of package [labels]; a label
    read from the root package. *)
Definition Parse (input : string) : Label := ParseRelative input "".

(** Modelled from the spec: [Label.Format] of package [labels]; the fully
    qualified [@repo//pkg:target] spelling. *)
Definition Format (l : Label) : string :=
  "@" +:+ Repository l +:+ "//" +:+ Package l +:+ ":" +:+ Target l.

(** Modelled from the spec: [path.Join] on a package and a target, the
    slash-separated path of the fragment. *)
Definition Join (a b : string) : string :=
  if String.eqb a "" then b
  else if String.eqb b "" then a
  else a +:+ "/" +:+ b.

#[export] Instance collaborators : Collaborators :=
  Build_Collaborators CallExpr Rules (fun r => r) Kind ExplicitName AttrString
    ParseRelative Parse Format Join.

End SpecModel.

(** ** The [use_repo] calls of a manifest *)

(** The loop of [UseRepos], lines 78-97, with the slice [useRepos] as
    accumulator.  The result lists the calls; in Go they are pointers to
    the nodes of [f.Stmt]. *)
Fixpoint UseReposLoop (stmts : list Expr) (proxiesSet : gset string)
    (useRepos : list CallExpr) : list CallExpr :=
  match stmts with
  | [] => useRepos
  | stmt :: rest =>
      match stmt with
      | Call call =>
          match X call with
          | Ident fn =>
              if negb (String.eqb fn "use_repo") || (length (List call) <? 1)
              then UseReposLoop rest proxiesSet useRepos
              else
                match List call with
                | Ident proxy_ :: _ =>
                    if bool_decide (proxy_ ∈ proxiesSet)
                    then UseReposLoop rest proxiesSet (useRepos ++ [call])
                    else UseReposLoop rest proxiesSet useRepos
                | _ => UseReposLoop rest proxiesSet useRepos
                end
          | _ => UseReposLoop rest proxiesSet useRepos
          end
      | _ => UseReposLoop rest proxiesSet useRepos
      end
  end.

(** [UseRepos], lines 71-100. *)
Definition UseRepos (f : File) (proxies : list string) : list CallExpr :=
  UseReposLoop (Stmt f) (list_to_set proxies) [].

(** The call a statement contributes to the result of [UseRepos],
    lines 79-96, if any. *)
Definition useRepoIn (proxiesSet : gset string) (stmt : Expr) : option CallExpr :=
  match stmt with
  | Call call =>
      match X call with
      | Ident fn =>
          if negb (String.eqb fn "use_repo") || (length (List call) <? 1) then None
          else
            match List call with
            | Ident proxy_ :: _ => if bool_decide (proxy_ ∈ proxiesSet) then Some call else None
            | _ => None
            end
      | _ => None
      end
  | _ => None
  end.

(** A statement that [UseRepos] returns for the given proxies. *)
Definition isUseRepoOf (proxies : list string) (call : CallExpr) : Prop :=
  X call = Ident "use_repo"
  ∧ ∃ p rest, List call = Ident p :: rest ∧ p ∈ proxies.

Section ModuleNames.
Context `{Collaborators}.

(** [ExtractModuleToApparentNameMapping], lines 361-367: the function
    returned looks the module up in the collected map and yields the
    empty string for a module without entry, and for every module when
    the map is nil.  [None] when the traversal does not return within
    [fuel] iterations. *)
Definition ExtractModuleToApparentNameMapping (fuel : nat)
    (fileReader : string -> option File) : option (string -> string) :=
  match (collectApparentNames fuel fileReader "MODULE.bazel").1 with
  | OutOfFuel => None
  | Returned moduleToApparentName =>
      Some (fun moduleName =>
              match moduleToApparentName with
              | Some m => default "" (m !! moduleName)
              | None => ""
              end)
  end.

(** A path the traversal may read: the root, or a path included by a
    fragment that was read. *)
Definition includedFrom (fileReader : string -> option File) (relPath : string)
    (reads : list string) (p : string) : Prop :=
  p = relPath
  ∨ ∃ q bf, q ∈ reads ∧ fileReader q = Some bf ∧ p ∈ includesOf bf.

End ModuleNames.

(** No two [use_extension] assignments of the manifest bind the same
    proxy. *)
Definition uniqueProxies (f : File) : Prop :=
  ∀ i j s s',
    Stmt f !! i = Some s → Stmt f !! j = Some s' →
    proxy (parseUseExtension s) ≠ "" →
    proxy (parseUseExtension s) = proxy (parseUseExtension s') →
    i = j.

(** ** Properties stated in the words of the manifest

    A statement "uses" a proxy when it is the [use_extension] assignment
    that defines it or a tag call on it.  Both parsers return the empty
    string for a statement that is neither. *)

Definition definesProxy (stmt : Expr) (p : string) : Prop :=
  p ≠ "" ∧ proxy (parseUseExtension stmt) = p.

#[global] Instance definesProxy_dec stmt p : Decision (definesProxy stmt p).
Proof. unfold definesProxy. apply _. Defined.

Definition tagCallOn (stmt : Expr) (p : string) : Prop :=
  p ≠ "" ∧ parseTag stmt = p.

Definition usesProxy (stmt : Expr) (p : string) : Prop :=
  definesProxy stmt p ∨ tagCallOn stmt p.

(** The proxy a statement is counted for in [lastProxyUsage],
    lines 330-348, if any. *)
Definition usageIn (proxiesSet : gset string) (stmt : Expr) : option string :=
  let proxy_ := proxy (parseUseExtension stmt) in
  if negb (String.eqb proxy_ "") && bool_decide (proxy_ ∈ proxiesSet) then Some proxy_
  else
    let proxy_ := parseTag stmt in
    if negb (String.eqb proxy_ "") && bool_decide (proxy_ ∈ proxiesSet) then Some proxy_
    else None.

(** The call [use_repo(proxy)] that [NewUseRepo] builds. *)
Definition useRepoCall (p : string) : CallExpr :=
  mkCallExpr (Ident "use_repo") [Ident p] 0.

(** The names already imported by the given statements: what their
    arguments behind the proxy reference yield. *)
Definition existingRepos (st : store) (useRepos : list nat) : list string :=
  flat_map (fun p => map repoFromUseRepoArg (tail (argsAt st p))) useRepos.

(** The number of bare string arguments with a given value. *)
Definition countBare (x : string) (args : list Expr) : nat :=
  length (List.filter (fun a => match a with
                                | StringExpr v => String.eqb v x
                                | _ => false
                                end) args).

(** The number of times a name is requested. *)
Definition occurrences (x : string) (repos : list string) : nat :=
  length (List.filter (String.eqb x) repos).

(** The arguments appended for a request: the names not seen before the
    loop, every time they are requested. *)
Definition addedArgs (seen : gset string) (repos : list string) : list Expr :=
  map StringExpr (filter (fun repo => repo ∉ seen) repos).

(** The argument list [RemoveRepoUsages] leaves for a statement it is
    given. *)
Definition withoutRepos (repos : list string) (args : list Expr) : list Expr :=
  match args with
  | [] => []
  | ext :: later => ext :: filter (fun arg => repoFromUseRepoArg arg ∉ repos) later
  end.

(** The node [RemoveRepoUsages] leaves at an address. *)
Definition removedNode (useRepos : list nat) (repos : list string) (p : nat)
    (c : CallExpr) : CallExpr :=
  mkCallExpr (X c)
    (if decide (p ∈ useRepos) then withoutRepos repos (List c) else List c) (Pos c).

Section Merged.
Context `{Collaborators}.

(** The extension usages that form one group with [u]. *)
Definition sameUsage (apparentModuleName : string) (u u' : UseExtension) : Prop :=
  proxy u' ≠ "" ∧ dev u' = dev u ∧ isolate u' = false ∧
  normalizeLabelString (bzlFile u') apparentModuleName
    = normalizeLabelString (bzlFile u) apparentModuleName ∧
  name u' = name u.

#[global] Instance sameUsage_dec a u u' : Decision (sameUsage a u u').
Proof. unfold sameUsage. apply _. Defined.

(** The group of a proxy: nothing when no statement defines it, itself
    when its usage is isolated, and otherwise the proxies of the usages
    of the same extension, in file order. *)
Definition proxyGroup (f : File) (p : string) : list string :=
  match list_find (fun stmt => definesProxy stmt p) (Stmt f) with
  | None => []
  | Some (_, stmt) =>
      let u := parseUseExtension stmt in
      if isolate u then [p]
      else
        map proxy
          (filter (sameUsage (getApparentModuleName f) u) (map parseUseExtension (Stmt f)))
  end.

(** The mapping merged from the fragments read, in the order they were
    read; absent as soon as one of them is. *)
Definition mergedNames (fileReader : string -> option File) (reads : list string)
    : option (gmap string string) :=
  fold_left
    (fun acc p =>
       match acc, fileReader p with
       | Some m, Some bf => Some (fst (collectApparentNamesAndIncludes bf) ∪ m)
       | _, _ => None
       end)
    reads (Some ∅).

End Merged.

(** ** Concrete manifests *)

Module Examples.

Definition keyword (k : string) (v : Expr) : Expr := AssignExpr (Ident k) "=" v.

Definition call (fn : string) (args : list Expr) (pos : Z) : Expr :=
  Call (mkCallExpr (Ident fn) args pos).

(** [p = use_extension(bzlFile, name, extra...)] *)
Definition useExtension (p bzlFile name : string) (extra : list Expr) : Expr :=
  AssignExpr (Ident p) "="
    (Call (mkCallExpr (Ident "use_extension")
             (StringExpr bzlFile :: StringExpr name :: extra) 0)).

(** [p.tag()] *)
Definition tag (p tagName : string) : Expr :=
  Call (mkCallExpr (DotExpr (Ident p) tagName) [] 0).

(** [foo()] followed by [x = use_extension("", "")]. *)
Definition emptyNames : File :=
  mkFile "MODULE.bazel" [call "foo" [] 0; useExtension "x" "" "" []] TypeModule.

(** Two shared usages of one extension and an isolated one. *)
Definition sharedUsages : File :=
  mkFile "MODULE.bazel"
    [useExtension "p1" "a.bzl" "e" [];
     useExtension "p2" "a.bzl" "e" [];
     useExtension "p3" "a.bzl" "e" [keyword "isolate" (Ident "True")]]
    TypeModule.

(** A store with the single node [use_repo()]. *)
Definition bareUseRepo : store := [mkCallExpr (Ident "use_repo") [] 10].

(** A store with [use_repo(p, "a")] and [use_repo(p, b = "c")]. *)
Definition twoUseRepos : store :=
  [mkCallExpr (Ident "use_repo") [Ident "p"; StringExpr "a"] 30;
   mkCallExpr (Ident "use_repo") [Ident "p"; keyword "b" (StringExpr "c")] 60].

(** A heap whose only array holds two statements and has room for two
    more, and the file whose [Stmt] is the slice of the first two cells. *)
Definition spareHeap : heap :=
  [[useExtension "p" "a.bzl" "e" []; call "bazel_dep" [keyword "name" (StringExpr "m")] 0;
    NilExpr; NilExpr]].

Definition spareFile : FileObj :=
  mkFileObj "MODULE.bazel" (mkSlice 0 0 2 4) TypeModule.

(** The same statements in an array without room. *)
Definition fullHeap : heap :=
  [[useExtension "p" "a.bzl" "e" []; tag "p" "install";
    call "bazel_dep" [keyword "name" (StringExpr "m")] 0]].

Definition fullFile : FileObj :=
  mkFileObj "MODULE.bazel" (mkSlice 0 0 3 3) TypeModule.

(** The runtime doubles the capacity. *)
Definition doubling (old needed : nat) : nat := 2 * old.

Definition include (label : string) : Expr := call "include" [StringExpr label] 0.

Definition bazelDep (attrs : list Expr) : Expr := call "bazel_dep" attrs 0.

(** Two fragments that include each other. *)
Definition cyclicReader (relPath : string) : option File :=
  if String.eqb relPath "MODULE.bazel" then
    Some (mkFile relPath
            [bazelDep [keyword "name" (StringExpr "rules_go")];
             include "//:deps.MODULE.bazel"] TypeModule)
  else if String.eqb relPath "deps.MODULE.bazel" then
    Some (mkFile relPath
            [bazelDep [keyword "name" (StringExpr "rules_cc");
                       keyword "repo_name" (StringExpr "my_rules_cc")];
             include "//:MODULE.bazel"] TypeModule)
  else None.

(** The root fragment includes a fragment that does not exist. *)
Definition missingReader (relPath : string) : option File :=
  if String.eqb relPath "MODULE.bazel" then
    Some (mkFile relPath
            [bazelDep [keyword "name" (StringExpr "rules_go")];
             include "//tools:missing.MODULE.bazel"] TypeModule)
  else None.

(** A reader that knows a fragment at every path, each including the
    fragment at a longer path of the same package. *)
Definition endlessReader (relPath : string) : option File :=
  Some (mkFile relPath [include ("x" +:+ relPath)] TypeModule).

(** A manifest with the [use_repo] calls of two proxies. *)
Definition withUseRepos : File :=
  mkFile "MODULE.bazel"
    [useExtension "p" "a.bzl" "e" [];
     call "use_repo" [Ident "p"; StringExpr "a"] 30;
     call "use_repo" [Ident "q"; StringExpr "b"] 60;
     call "use_repo" [] 70;
     call "use_repo" [Ident "p"; keyword "b" (StringExpr "c")] 90]
    TypeModule.

(** An array with room in which the last usage is the last statement. *)
Definition roomHeap : heap :=
  [[call "bazel_dep" [keyword "name" (StringExpr "m")] 0; useExtension "p" "a.bzl" "e" [];
    NilExpr; NilExpr]].

Definition roomFile : FileObj :=
  mkFileObj "MODULE.bazel" (mkSlice 0 0 2 4) TypeModule.

End Examples.

(** * Properties *)

(** ** Boolean keyword arguments *)

Lemma eqb_string_true (a b : string) : String.eqb a b = true ↔ a = b.
Proof. apply String.eqb_eq. Qed.

Lemma eqb_string_false (a b : string) : String.eqb a b = false ↔ a ≠ b.
Proof. apply String.eqb_neq. Qed.

Ltac case_eqb :=
  match goal with
  | |- context [String.eqb ?a ?b] =>
      let E := fresh "E" in
      destruct (String.eqb a b) eqn:E;
      [apply eqb_string_true in E | apply eqb_string_false in E]
  | H : context [String.eqb ?a ?b] |- _ =>
      let E := fresh "E" in
      destruct (String.eqb a b) eqn:E;
      [apply eqb_string_true in E | apply eqb_string_false in E]
  end.

Lemma parseFlags_existsb (args : list Expr) (d i : bool) :
  parseFlags args d i =
    (d || existsb (fun a => parseBooleanKeywordArg a "dev_dependency") args,
     i || existsb (fun a => parseBooleanKeywordArg a "isolate") args).
Proof.
  revert d i. induction args as [|arg rest IH]; intros d i; simpl.
  - by rewrite !orb_false_r.
  - rewrite IH. by rewrite !orb_assoc.
Qed.

Lemma parseBooleanKeywordArg_true (arg : Expr) (flag : string) :
  parseBooleanKeywordArg arg flag = true ↔
  ∃ op rhs, arg = AssignExpr (Ident flag) op rhs ∧ rhs ≠ Ident "False".
Proof.
  split.
  - destruct arg as [| | | | |lhs op rhs| |]; simpl; try discriminate.
    destruct lhs as [|argName| | | | | |]; try discriminate.
    case_eqb; simpl; [subst argName|discriminate].
    intros Hv. exists op, rhs. split; [done|].
    intros ->. simpl in Hv. discriminate.
  - intros (op & rhs & -> & Hrhs). simpl.
    rewrite String.eqb_refl. simpl.
    destruct rhs as [|argValue| | | | | |]; try done.
    case_eqb; [congruence|done].
Qed.

(** C7: an argument sets the flag [dev_dependency] or [isolate] (or any
    flag name) only when it is a keyword assignment whose left-hand side
    is the identifier of that name; for such an argument the value is
    false exactly when the right-hand side is the identifier [False],
    whatever else it is gives true; and [parseUseExtension] sets a flag
    when one of the arguments behind the second sets it. *)
Theorem parseBooleanKeywordArg_rule :
  ∀ (arg : Expr) (flag : string),
    (parseBooleanKeywordArg arg flag = true ↔
       ∃ op rhs, arg = AssignExpr (Ident flag) op rhs ∧ rhs ≠ Ident "False")
    ∧ (∀ op rhs,
         parseBooleanKeywordArg (AssignExpr (Ident flag) op rhs) flag = false
         ↔ rhs = Ident "False")
    ∧ (∀ p op bzl ext rest pos,
         let u := parseUseExtension
                    (AssignExpr (Ident p) op
                       (Call (mkCallExpr (Ident "use_extension")
                                (StringExpr bzl :: StringExpr ext :: rest) pos))) in
         dev u = existsb (fun a => parseBooleanKeywordArg a "dev_dependency") rest
         ∧ isolate u = existsb (fun a => parseBooleanKeywordArg a "isolate") rest).
Proof.
  intros arg flag. split; [apply parseBooleanKeywordArg_true|]. split.
  - intros op rhs. split.
    + simpl. rewrite String.eqb_refl. simpl.
      destruct rhs as [|argValue| | | | | |]; try discriminate.
      case_eqb; [congruence|discriminate].
    + intros ->. simpl. by rewrite String.eqb_refl.
  - intros p op bzl ext rest pos. simpl.
    rewrite parseFlags_existsb. simpl. done.
Qed.

(** ** The store of call nodes *)

Lemma deref_lookup (st : store) (p : nat) (c : CallExpr) :
  st !! p = Some c → deref st p = Ok c.
Proof. unfold deref. by intros ->. Qed.

Lemma valid_lookup (st : store) (p : nat) :
  p < length st → ∃ c, st !! p = Some c.
Proof. intros Hp. by apply lookup_lt_is_Some_2. Qed.

Lemma setList_lookup (st : store) (p : nat) (c : CallExpr) (l : list Expr) :
  st !! p = Some c →
  setList st p l = Ok (<[p := mkCallExpr (X c) l (Pos c)]> st).
Proof. intros Hc. unfold setList. by rewrite (deref_lookup _ _ _ Hc). Qed.

Lemma argsAt_insert (st : store) (p q : nat) (c : CallExpr) :
  p < length st →
  argsAt (<[p := c]> st) q = if decide (q = p) then List c else argsAt st q.
Proof.
  intros Hp. unfold argsAt. destruct (decide (q = p)) as [->|Hne].
  - by rewrite list_lookup_insert_eq.
  - by rewrite list_lookup_insert_ne.
Qed.

Lemma Pos_insert (st : store) (p q : nat) (c c' : CallExpr) :
  st !! p = Some c → Pos c' = Pos c →
  Pos <$> (<[p := c']> st) !! q = Pos <$> st !! q.
Proof.
  intros Hc HPos. destruct (decide (q = p)) as [->|Hne].
  - rewrite list_lookup_insert_eq; [|by eapply lookup_lt_Some].
    rewrite Hc. simpl. by rewrite HPos.
  - by rewrite list_lookup_insert_ne.
Qed.

(** ** The names already present *)

Lemma seenArgs_set (args : list Expr) (seen : gset string) :
  seenArgs args seen = list_to_set (map repoFromUseRepoArg args) ∪ seen.
Proof.
  unfold seenArgs. revert seen.
  induction args as [|arg rest IH]; intros seen; simpl.
  - set_solver.
  - rewrite IH. set_solver.
Qed.

Lemma seenLoop_set (st : store) (useRepos : list nat) (seen : gset string) :
  Forall (fun p => p < length st) useRepos →
  seenLoop st useRepos seen = Ok (list_to_set (existingRepos st useRepos) ∪ seen).
Proof.
  intros Hvalid. revert seen.
  induction Hvalid as [|p rest Hp _ IH]; intros seen; simpl.
  - f_equal. set_solver.
  - destruct (valid_lookup _ _ Hp) as [c Hc].
    rewrite (deref_lookup _ _ _ Hc). simpl.
    unfold argsAt. rewrite Hc.
    destruct (List c) as [|ext args]; simpl.
    + apply IH.
    + rewrite IH, seenArgs_set. f_equal.
      rewrite list_to_set_app_L. set_solver.
Qed.

(** ** The insertion target *)

Lemma getLastUseRepoLoop_total (st : store) (useRepos : list nat) (last : nat) :
  Forall (fun p => p < length st) useRepos → last < length st →
  ∃ target,
    getLastUseRepoLoop st useRepos (Some last) = Ok (Some target)
    ∧ (target = last ∨ target ∈ useRepos)
    ∧ target < length st.
Proof.
  intros Hvalid. revert last.
  induction Hvalid as [|p rest Hp _ IH]; intros last Hlast; simpl.
  - exists last. auto.
  - destruct (valid_lookup _ _ Hp) as [c Hc].
    destruct (valid_lookup _ _ Hlast) as [cl Hcl].
    rewrite (deref_lookup _ _ _ Hc), (deref_lookup _ _ _ Hcl). simpl.
    destruct (Pos c >? Pos cl)%Z.
    + destruct (IH p Hp) as (t & Ht & Hin & Hlt).
      exists t. split; [done|]. split; [|done].
      right. destruct Hin as [->|Hin]; [left|by right].
    + destruct (IH last Hlast) as (t & Ht & Hin & Hlt).
      exists t. split; [done|]. split; [|done].
      destruct Hin as [->|Hin]; [by left|right; by right].
Qed.

Lemma getLastUseRepo_total (st : store) (useRepos : list nat) :
  useRepos ≠ [] → Forall (fun p => p < length st) useRepos →
  ∃ target,
    getLastUseRepo st useRepos = Ok (Some target)
    ∧ target ∈ useRepos ∧ target < length st.
Proof.
  intros Hne Hvalid. destruct useRepos as [|p rest]; [done|].
  unfold getLastUseRepo. simpl.
  apply Forall_cons in Hvalid as [Hp Hrest].
  destruct (getLastUseRepoLoop_total st rest p Hrest Hp) as (t & Ht & Hin & Hlt).
  exists t. split; [done|]. split; [|done].
  destruct Hin as [->|Hin]; [left|by right].
Qed.

(** The target only depends on the positions of the nodes. *)
Lemma getLastUseRepoLoop_Pos (st st' : store) (useRepos : list nat) (last : option nat) :
  (∀ p, Pos <$> st' !! p = Pos <$> st !! p) →
  getLastUseRepoLoop st' useRepos last = getLastUseRepoLoop st useRepos last.
Proof.
  intros HPos. revert last.
  induction useRepos as [|p rest IH]; intros last; simpl; [done|].
  destruct last as [l|]; [|apply IH].
  unfold deref.
  pose proof (HPos p) as Hp. pose proof (HPos l) as Hl.
  destruct (st' !! p) as [c'|], (st !! p) as [c|]; simpl in *; try done.
  destruct (st' !! l) as [cl'|], (st !! l) as [cl|]; simpl in *; try done.
  injection Hp as ->. injection Hl as ->.
  by rewrite !IH.
Qed.

(** No statement among the given ones lies behind the target. *)
Lemma getLastUseRepoLoop_max (st : store) (useRepos : list nat) (last target : nat) :
  getLastUseRepoLoop st useRepos (Some last) = Ok (Some target) →
  ∀ p c ct, (p = last ∨ p ∈ useRepos) → st !! p = Some c → st !! target = Some ct →
            (Pos c ≤ Pos ct)%Z.
Proof.
  revert last. induction useRepos as [|u rest IH]; intros last; simpl.
  - intros [= ->] p c ct [->|Hin] Hc Hct; [|by apply elem_of_nil in Hin].
    rewrite Hc in Hct. injection Hct as ->. lia.
  - unfold deref. destruct (st !! u) as [cu|] eqn:Hu; simpl; [|done].
    destruct (st !! last) as [cl|] eqn:Hl; simpl; [|done].
    destruct (Pos cu >? Pos cl)%Z eqn:Hgt.
    + intros Hrun p c ct Hp Hc Hct.
      assert (Pos cu ≤ Pos ct)%Z as Hcu by (eapply (IH u Hrun u); eauto).
      destruct Hp as [->|Hp].
      * rewrite Hl in Hc. injection Hc as ->. lia.
      * apply elem_of_cons in Hp as [->|Hp].
        -- rewrite Hu in Hc. by injection Hc as ->.
        -- eapply (IH u Hrun p); eauto.
    + intros Hrun p c ct Hp Hc Hct.
      assert (Pos cl ≤ Pos ct)%Z as Hcl by (eapply (IH last Hrun last); eauto).
      destruct Hp as [->|Hp].
      * rewrite Hl in Hc. by injection Hc as ->.
      * apply elem_of_cons in Hp as [->|Hp].
        -- rewrite Hu in Hc. injection Hc as ->. lia.
        -- eapply (IH last Hrun p); eauto.
Qed.

(** The target is the textually last of the given statements. *)
Lemma getLastUseRepo_last (st : store) (useRepos : list nat) (target : nat)
    (p : nat) (c ct : CallExpr) :
  getLastUseRepo st useRepos = Ok (Some target) →
  p ∈ useRepos → st !! p = Some c → st !! target = Some ct →
  (Pos c ≤ Pos ct)%Z.
Proof.
  unfold getLastUseRepo. destruct useRepos as [|u rest]; [done|].
  cbn [getLastUseRepoLoop]. intros Hrun Hp Hc Hct.
  apply (getLastUseRepoLoop_max st rest u target Hrun p c ct); [|done|done].
  apply elem_of_cons in Hp as [->|Hp]; [by left|by right].
Qed.

(** ** Adding repositories *)

Lemma appendLoop_result (st : store) (target : nat) (c : CallExpr)
    (seen : gset string) (repos : list string) :
  st !! target = Some c →
  appendLoop st (Some target) seen repos
  = Ok (<[target := mkCallExpr (X c) (List c ++ addedArgs seen repos) (Pos c)]> st).
Proof.
  unfold addedArgs. revert st c.
  induction repos as [|repo rest IH]; intros st c Hc; simpl.
  - rewrite app_nil_r. f_equal. symmetry. apply list_insert_id.
    rewrite Hc. f_equal. by destruct c.
  - destruct (decide (repo ∈ seen)) as [Hin|Hout].
    + rewrite bool_decide_eq_true_2 by done.
      rewrite filter_cons_False by (intros ?; done). by apply IH.
    + rewrite bool_decide_eq_false_2 by done.
      rewrite filter_cons_True by done. simpl.
      rewrite (deref_lookup _ _ _ Hc). simpl.
      rewrite (setList_lookup _ _ _ _ Hc). simpl.
      erewrite IH; last first.
      { apply list_lookup_insert_eq. by eapply lookup_lt_Some. }
      simpl. rewrite list_insert_insert_eq. by rewrite <- app_assoc.
Qed.

Lemma AddRepoUsages_result (st : store) (useRepos : list nat) (repos : list string) :
  useRepos ≠ [] → Forall (fun p => p < length st) useRepos →
  ∃ target c,
    getLastUseRepo st useRepos = Ok (Some target)
    ∧ target ∈ useRepos
    ∧ st !! target = Some c
    ∧ AddRepoUsages st useRepos repos
      = Ok (<[target := mkCallExpr (X c)
                          (List c ++ addedArgs (list_to_set (existingRepos st useRepos)) repos)
                          (Pos c)]> st).
Proof.
  intros Hne Hvalid.
  destruct (getLastUseRepo_total st useRepos Hne Hvalid) as (target & Ht & Hin & Hlt).
  destruct (valid_lookup _ _ Hlt) as [c Hc].
  exists target, c. do 3 (split; [done|]).
  unfold AddRepoUsages.
  destruct repos as [|repo rest].
  - simpl. f_equal. unfold addedArgs. simpl. rewrite app_nil_r.
    symmetry. apply list_insert_id. rewrite Hc. f_equal. by destruct c.
  - destruct useRepos as [|u more]; [done|].
    change (length (repo :: rest) =? 0) with false.
    change (length (u :: more) =? 0) with false. cbv iota.
    rewrite (seenLoop_set _ _ _ Hvalid). cbn [bind].
    rewrite Ht. cbn [bind].
    rewrite (appendLoop_result _ _ _ _ _ Hc).
    by rewrite (right_id_L ∅ (∪)).
Qed.

(** C2, as the code has it: without target statements the call panics
    with the message of line 130 when repositories are requested, and
    returns without effect when none is. *)
Theorem AddRepoUsages_no_targets :
  ∀ (st : store) (repos : list string),
    AddRepoUsages st [] repos
    = match repos with
      | [] => Ok st
      | _ :: _ => Panics (PanicMsg "useRepos must not be empty")
      end.
Proof. intros st [|repo rest]; reflexivity. Qed.

(** C2 fails as stated: with an empty list of target statements and an
    empty list of names the call returns normally. *)
Lemma AddRepoUsages_returns_without_request :
  ¬ (∀ (st : store) (repos : list string), ∃ p, AddRepoUsages st [] repos = Panics p).
Proof. intros Hpanic. destruct (Hpanic [] []) as [p Hp]. discriminate Hp. Qed.

Lemma countBare_app (x : string) (l1 l2 : list Expr) :
  countBare x (l1 ++ l2) = countBare x l1 + countBare x l2.
Proof. unfold countBare. by rewrite List.filter_app, length_app. Qed.

Lemma countBare_added (x : string) (seen : gset string) (repos : list string) :
  x ∉ seen → countBare x (addedArgs seen repos) = occurrences x repos.
Proof.
  intros Hx. unfold countBare, occurrences, addedArgs.
  induction repos as [|repo rest IH]; simpl; [done|].
  destruct (decide (repo ∈ seen)) as [Hin|Hout].
  - rewrite filter_cons_False by (intros ?; done).
    rewrite IH. case_eqb; [by subst|done].
  - rewrite filter_cons_True by done. simpl.
    rewrite (String.eqb_sym repo x).
    destruct (String.eqb x repo); simpl; by rewrite IH.
Qed.

(** C10: the names already present are collected once, before the loop
    that appends: the target receives one bare string for every requested
    name that no given statement had, in the order requested, so a name
    that was absent and is requested [n] times is appended [n] times. *)
Theorem AddRepoUsages_appends_every_request :
  ∀ (st : store) (useRepos : list nat) (repos : list string) (x : string),
    useRepos ≠ [] →
    Forall (fun p => p < length st) useRepos →
    x ∉ existingRepos st useRepos →
    ∃ target st',
      getLastUseRepo st useRepos = Ok (Some target)
      ∧ AddRepoUsages st useRepos repos = Ok st'
      ∧ argsAt st' target
        = argsAt st target
          ++ map StringExpr (filter (fun repo => repo ∉ existingRepos st useRepos) repos)
      ∧ countBare x (argsAt st' target) = countBare x (argsAt st target) + occurrences x repos
      ∧ (∀ p, p ≠ target → st' !! p = st !! p).
Proof.
  intros st useRepos repos x Hne Hvalid Hx.
  destruct (AddRepoUsages_result st useRepos repos Hne Hvalid)
    as (target & c & Ht & Hin & Hc & Hrun).
  eexists target, _. split; [done|]. split; [exact Hrun|].
  assert (target < length st) as Hlt by (by eapply lookup_lt_Some).
  assert (addedArgs (list_to_set (existingRepos st useRepos)) repos
          = map StringExpr (filter (fun repo => repo ∉ existingRepos st useRepos) repos))
    as Hadded.
  { unfold addedArgs. f_equal. apply list_filter_iff. intros repo.
    by rewrite elem_of_list_to_set. }
  rewrite argsAt_insert by done. rewrite decide_True by done. simpl.
  assert (argsAt st target = List c) as -> by (unfold argsAt; by rewrite Hc).
  split; [by rewrite Hadded|]. split.
  - rewrite countBare_app. f_equal. apply countBare_added.
    by rewrite elem_of_list_to_set.
  - intros p Hp. by rewrite list_lookup_insert_ne.
Qed.

Ltac by_evaluation := apply (bool_decide_unpack _); vm_compute; exact I.

Lemma AddRepoUsages_appends_every_request_witness :
  [0; 1] ≠ []
  ∧ Forall (fun p => p < length Examples.twoUseRepos) [0; 1]
  ∧ ("x" ∉ existingRepos Examples.twoUseRepos [0; 1])
  ∧ ∃ target st',
      getLastUseRepo Examples.twoUseRepos [0; 1] = Ok (Some target)
      ∧ AddRepoUsages Examples.twoUseRepos [0; 1] ["x"; "a"; "x"] = Ok st'
      ∧ argsAt st' target
        = argsAt Examples.twoUseRepos target
          ++ map StringExpr
               (filter (fun repo => repo ∉ existingRepos Examples.twoUseRepos [0; 1])
                  ["x"; "a"; "x"])
      ∧ countBare "x" (argsAt st' target)
        = countBare "x" (argsAt Examples.twoUseRepos target) + occurrences "x" ["x"; "a"; "x"]
      ∧ (∀ p, p ≠ target → st' !! p = Examples.twoUseRepos !! p).
Proof.
  assert ([0; 1] ≠ []) as H1 by discriminate.
  assert (Forall (fun p => p < length Examples.twoUseRepos) [0; 1]) as H2
    by (repeat constructor).
  assert ("x" ∉ existingRepos Examples.twoUseRepos [0; 1]) as H3 by by_evaluation.
  do 3 (split; [assumption|]).
  exact (AddRepoUsages_appends_every_request
           Examples.twoUseRepos [0; 1] ["x"; "a"; "x"] "x" H1 H2 H3).
Defined.

(** What [AddRepoUsages] does with the request above. *)
Example AddRepoUsages_twoUseRepos :
  AddRepoUsages Examples.twoUseRepos [0; 1] ["x"; "a"; "x"]
  = Ok [mkCallExpr (Ident "use_repo") [Ident "p"; StringExpr "a"] 30;
        mkCallExpr (Ident "use_repo")
          [Ident "p"; Examples.keyword "b" (StringExpr "c"); StringExpr "x"; StringExpr "x"] 60].
Proof. vm_compute. reflexivity. Qed.

(** C4 fails on the code for a target without arguments: the first call
    turns [use_repo()] into [use_repo("x")], where the name sits in the
    place of the proxy reference and is not seen by the second call, which
    appends it again. *)
Theorem AddRepoUsages_twice_on_bare_call :
  AddRepoUsages Examples.bareUseRepo [0] ["x"]
  = Ok [mkCallExpr (Ident "use_repo") [StringExpr "x"] 10]
  ∧ (let! st1 := AddRepoUsages Examples.bareUseRepo [0] ["x"] in
     AddRepoUsages st1 [0] ["x"])
    = Ok [mkCallExpr (Ident "use_repo") [StringExpr "x"; StringExpr "x"] 10].
Proof. split; vm_compute; reflexivity. Qed.

Lemma existingRepos_elem (st : store) (useRepos : list nat) (p : nat) (x : string) :
  p ∈ useRepos → x ∈ map repoFromUseRepoArg (tail (argsAt st p)) →
  x ∈ existingRepos st useRepos.
Proof.
  intros Hp Hx. unfold existingRepos.
  apply list_elem_of_In, in_flat_map. exists p.
  split; by apply list_elem_of_In.
Qed.

(** When the target has its proxy reference, a second request for the
    same name changes nothing. *)
Lemma AddRepoUsages_idempotent (st st1 : store) (useRepos : list nat) (target : nat)
    (x : string) :
  useRepos ≠ [] →
  Forall (fun p => p < length st) useRepos →
  getLastUseRepo st useRepos = Ok (Some target) →
  argsAt st target ≠ [] →
  AddRepoUsages st useRepos [x] = Ok st1 →
  AddRepoUsages st1 useRepos [x] = Ok st1.
Proof.
  intros Hne Hvalid Ht Hargs Hrun.
  destruct (AddRepoUsages_result st useRepos [x] Hne Hvalid)
    as (t & c & Ht' & Hin & Hc & Hrun').
  rewrite Ht in Ht'. injection Ht' as <-.
  rewrite Hrun in Hrun'. injection Hrun' as ->.
  assert (target < length st) as Hlt by (by eapply lookup_lt_Some).
  assert (argsAt st target = List c) as HList by (unfold argsAt; by rewrite Hc).
  set (c' := mkCallExpr (X c)
               (List c ++ addedArgs (list_to_set (existingRepos st useRepos)) [x]) (Pos c)).
  assert (Forall (fun p => p < length (<[target := c']> st)) useRepos) as Hvalid'
    by (by rewrite length_insert).
  destruct (AddRepoUsages_result (<[target := c']> st) useRepos [x] Hne Hvalid')
    as (t1 & c1 & Ht1 & _ & Hc1 & Hrun1).
  unfold getLastUseRepo in Ht1.
  rewrite (getLastUseRepoLoop_Pos st) in Ht1
    by (intros p; by apply (Pos_insert _ _ _ c)).
  fold (getLastUseRepo st useRepos) in Ht1. rewrite Ht in Ht1. injection Ht1 as <-.
  rewrite list_lookup_insert_eq in Hc1 by done. injection Hc1 as <-.
  rewrite Hrun1. f_equal. rewrite list_insert_insert_eq. f_equal.
  assert (addedArgs (list_to_set (existingRepos (<[target := c']> st) useRepos)) [x] = [])
    as ->; [|by rewrite app_nil_r].
  unfold addedArgs. rewrite filter_cons_False, filter_nil; [done|].
  intros Hout. apply Hout. apply elem_of_list_to_set.
  destruct (decide (x ∈ existingRepos st useRepos)) as [Hseen|Hnew].
  - assert (<[target := c']> st = st) as ->; [|done].
    apply list_insert_id. rewrite Hc. f_equal.
    unfold c', addedArgs. rewrite filter_cons_False, filter_nil.
    + simpl. rewrite app_nil_r. by destruct c.
    + intros Hx. apply Hx. by apply elem_of_list_to_set.
  - apply (existingRepos_elem _ _ target); [done|].
    rewrite argsAt_insert by done. rewrite decide_True by done.
    unfold c', addedArgs. simpl.
    rewrite filter_cons_True, filter_nil by (by rewrite elem_of_list_to_set).
    simpl. rewrite HList in Hargs.
    destruct (List c) as [|ext later]; [done|]. simpl.
    rewrite map_app. simpl. apply elem_of_app. right. by left.
Qed.

(** ** Removing repositories *)

Lemma keptArgs_filter (toRemove : gset string) (l args : list Expr) :
  keptArgs toRemove l args
  = args ++ filter (fun arg => repoFromUseRepoArg arg ∉ toRemove) l.
Proof.
  revert args. induction l as [|arg rest IH]; intros args; simpl.
  - by rewrite filter_nil, app_nil_r.
  - destruct (decide (repoFromUseRepoArg arg ∈ toRemove)) as [Hin|Hout].
    + rewrite bool_decide_eq_true_2 by done.
      rewrite filter_cons_False by (intros ?; done). apply IH.
    + rewrite bool_decide_eq_false_2 by done.
      rewrite filter_cons_True by done. rewrite IH. by rewrite <- app_assoc.
Qed.

Lemma keptArgs_withoutRepos (repos : list string) (ext : Expr) (later : list Expr) :
  ext :: keptArgs (list_to_set repos) later [] = withoutRepos repos (ext :: later).
Proof.
  rewrite keptArgs_filter. simpl. f_equal.
  apply list_filter_iff. intros arg. by rewrite elem_of_list_to_set.
Qed.

Lemma withoutRepos_idemp (repos : list string) (args : list Expr) :
  withoutRepos repos (withoutRepos repos args) = withoutRepos repos args.
Proof.
  destruct args as [|ext later]; simpl; [done|]. f_equal.
  rewrite list_filter_filter. apply list_filter_iff. tauto.
Qed.

Lemma removeLoop_result (st : store) (useRepos : list nat) (repos : list string) :
  Forall (fun p => p < length st) useRepos →
  ∃ st',
    removeLoop st useRepos (list_to_set repos) = Ok st'
    ∧ length st' = length st
    ∧ ∀ p, argsAt st' p
           = if decide (p ∈ useRepos) then withoutRepos repos (argsAt st p) else argsAt st p.
Proof.
  revert st. induction useRepos as [|u rest IH]; intros st Hvalid; cbn [removeLoop].
  - exists st. do 2 (split; [done|]). intros p.
    rewrite decide_False; [done|]. apply not_elem_of_nil.
  - apply Forall_cons in Hvalid as [Hu Hrest].
    destruct (valid_lookup _ _ Hu) as [c Hc].
    rewrite (deref_lookup _ _ _ Hc). cbn [bind].
    assert (argsAt st u = List c) as Hargs by (unfold argsAt; by rewrite Hc).
    destruct (List c) as [|ext later] eqn:HList.
    + destruct (IH st Hrest) as (st' & Hrun & Hlen & Hst').
      exists st'. do 2 (split; [done|]). intros p. rewrite Hst'.
      destruct (decide (p = u)) as [->|Hne].
      * rewrite (decide_True (P := u ∈ u :: rest)) by left.
        rewrite Hargs. simpl. by destruct (decide (u ∈ rest)).
      * destruct (decide (p ∈ rest)) as [Hin|Hout].
        -- rewrite decide_True; [done|by right].
        -- rewrite decide_False; [done|].
           intros [->|?]%elem_of_cons; done.
    + rewrite (setList_lookup _ _ _ _ Hc). cbn [bind].
      rewrite keptArgs_withoutRepos.
      set (st1 := <[u := mkCallExpr (X c) (withoutRepos repos (ext :: later)) (Pos c)]> st).
      assert (length st1 = length st) as Hlen1 by apply length_insert.
      destruct (IH st1) as (st' & Hrun & Hlen & Hst').
      { by rewrite Hlen1. }
      exists st'. split; [done|]. split; [congruence|]. intros p. rewrite Hst'.
      unfold st1. rewrite argsAt_insert by done. cbn [List].
      destruct (decide (p = u)) as [->|Hne].
      * rewrite (decide_True (P := u ∈ u :: rest)) by left.
        rewrite Hargs. destruct (decide (u ∈ rest)); [|done].
        apply withoutRepos_idemp.
      * destruct (decide (p ∈ rest)) as [Hin|Hout].
        -- rewrite decide_True; [done|by right].
        -- rewrite decide_False; [done|].
           intros [->|?]%elem_of_cons; done.
Qed.

(** C5: [RemoveRepoUsages] returns, and every statement that had an
    argument keeps the one at position 0; behind it, a statement that was
    given (when there is something to remove) keeps the arguments whose
    repository is not to be removed, in their order, and any other
    statement keeps all of them. *)
Theorem RemoveRepoUsages_keeps_proxy :
  ∀ (st : store) (useRepos : list nat) (repos : list string),
    Forall (fun p => p < length st) useRepos →
    ∃ st',
      RemoveRepoUsages st useRepos repos = Ok st'
      ∧ length st' = length st
      ∧ ∀ p ext later,
          argsAt st p = ext :: later →
          ∃ later',
            argsAt st' p = ext :: later'
            ∧ sublist later' later
            ∧ later' = if decide (p ∈ useRepos ∧ repos ≠ [])
                       then filter (fun arg => repoFromUseRepoArg arg ∉ repos) later
                       else later.
Proof.
  intros st useRepos repos Hvalid. unfold RemoveRepoUsages.
  destruct useRepos as [|u rest].
  { exists st. do 2 (split; [done|]). intros p ext later Hargs.
    exists later. split; [done|]. split; [done|].
    rewrite decide_False; [done|]. intros [Hin _]. by apply elem_of_nil in Hin. }
  destruct repos as [|repo more].
  { exists st. do 2 (split; [done|]). intros p ext later Hargs.
    exists later. split; [done|]. split; [done|].
    rewrite decide_False; [done|]. by intros [_ ?]. }
  change (length (u :: rest) =? 0) with false.
  change (length (repo :: more) =? 0) with false. cbn [orb].
  destruct (removeLoop_result st (u :: rest) (repo :: more) Hvalid)
    as (st' & Hrun & Hlen & Hst').
  exists st'. do 2 (split; [done|]). intros p ext later Hargs.
  rewrite Hst', Hargs.
  destruct (decide (p ∈ u :: rest)) as [Hin|Hout].
  - eexists. split; [reflexivity|]. split; [apply sublist_filter|].
    by rewrite decide_True.
  - exists later. split; [done|]. split; [done|].
    rewrite decide_False; [done|]. by intros [? _].
Qed.

Lemma RemoveRepoUsages_keeps_proxy_witness :
  Forall (fun p => p < length Examples.twoUseRepos) [1; 0; 1]
  ∧ ∃ st',
      RemoveRepoUsages Examples.twoUseRepos [1; 0; 1] ["c"; "z"] = Ok st'
      ∧ length st' = length Examples.twoUseRepos
      ∧ ∀ p ext later,
          argsAt Examples.twoUseRepos p = ext :: later →
          ∃ later',
            argsAt st' p = ext :: later'
            ∧ sublist later' later
            ∧ later' = if decide (p ∈ [1; 0; 1] ∧ ["c"; "z"] ≠ [])
                       then filter (fun arg => repoFromUseRepoArg arg ∉ ["c"; "z"]) later
                       else later.
Proof.
  assert (Forall (fun p => p < length Examples.twoUseRepos) [1; 0; 1]) as H1
    by (repeat constructor).
  split; [assumption|].
  exact (RemoveRepoUsages_keeps_proxy Examples.twoUseRepos [1; 0; 1] ["c"; "z"] H1).
Defined.

(** What [RemoveRepoUsages] does with the request above. *)
Example RemoveRepoUsages_twoUseRepos :
  RemoveRepoUsages Examples.twoUseRepos [1; 0; 1] ["c"; "z"]
  = Ok [mkCallExpr (Ident "use_repo") [Ident "p"; StringExpr "a"] 30;
        mkCallExpr (Ident "use_repo") [Ident "p"] 60].
Proof. vm_compute. reflexivity. Qed.

(** ** Proxies of one extension usage *)

Section ProxyGroups.
Context `{Collaborators}.

Lemma ProxiesLoop_filter (stmts : list Expr) (a ext n : string) (d : bool)
    (proxies : list string) :
  ProxiesLoop stmts a ext n d proxies
  = proxies
    ++ map proxy
         (filter (fun u => proxy u ≠ "" ∧ dev u = d ∧ isolate u = false
                           ∧ normalizeLabelString (bzlFile u) a = ext ∧ name u = n)
            (map parseUseExtension stmts)).
Proof.
  revert proxies. induction stmts as [|stmt rest IH]; intros proxies; cbn [ProxiesLoop map].
  - by rewrite filter_nil, app_nil_r.
  - set (u := parseUseExtension stmt).
    destruct (String.eqb (proxy u) "") eqn:Ep.
    { apply eqb_string_true in Ep. cbn [orb].
      rewrite filter_cons_False by (intros [? _]; done). apply IH. }
    apply eqb_string_false in Ep.
    destruct (Bool.eqb (dev u) d) eqn:Ed.
    2:{ apply Bool.eqb_false_iff in Ed. cbn [orb negb].
        rewrite filter_cons_False by (intros (_ & ? & _); done). apply IH. }
    apply Bool.eqb_prop in Ed.
    destruct (isolate u) eqn:Ei.
    { cbn [orb negb].
      rewrite filter_cons_False by (intros (_ & _ & ? & _); congruence). apply IH. }
    cbn [orb negb].
    destruct (String.eqb (normalizeLabelString (bzlFile u) a) ext) eqn:Eb.
    2:{ apply eqb_string_false in Eb. cbn [andb].
        rewrite filter_cons_False by (intros (_ & _ & _ & ? & _); done). apply IH. }
    apply eqb_string_true in Eb.
    destruct (String.eqb (name u) n) eqn:En.
    2:{ apply eqb_string_false in En. cbn [andb].
        rewrite filter_cons_False by (intros (_ & _ & _ & _ & ?); done). apply IH. }
    apply eqb_string_true in En. cbn [andb].
    rewrite filter_cons_True by done. rewrite IH. cbn [map].
    by rewrite <- app_assoc.
Qed.

Lemma Proxies_sameUsage (f : File) (u : UseExtension) :
  Proxies f (bzlFile u) (name u) (dev u)
  = map proxy (filter (sameUsage (getApparentModuleName f) u) (map parseUseExtension (Stmt f))).
Proof. unfold Proxies. by rewrite ProxiesLoop_filter. Qed.

Lemma AllProxiesLoop_find (f : File) (stmts : list Expr) (p : string) :
  p ≠ "" →
  AllProxiesLoop f stmts p
  = match list_find (fun stmt => definesProxy stmt p) stmts with
    | None => []
    | Some (_, stmt) =>
        let u := parseUseExtension stmt in
        if isolate u then [p] else Proxies f (bzlFile u) (name u) (dev u)
    end.
Proof.
  intros Hp. induction stmts as [|stmt rest IH]; cbn [AllProxiesLoop list_find]; [done|].
  destruct (String.eqb (proxy (parseUseExtension stmt)) p) eqn:E.
  - apply eqb_string_true in E. by rewrite decide_True.
  - apply eqb_string_false in E.
    rewrite decide_False by (intros [_ ?]; done).
    rewrite IH. by destruct (list_find _ rest) as [[i stmt']|].
Qed.

(** For a proxy name that is not empty, [AllProxies] returns the group of
    the proxy: nothing when no [use_extension] assignment defines it,
    itself when the first one that does is isolated, and otherwise the
    proxies of the usages that are not isolated and agree with it in
    normalized file, exported name and [dev_dependency], in file order. *)
Lemma AllProxies_group (f : File) (p : string) :
  p ≠ "" → AllProxies f p = proxyGroup f p.
Proof.
  intros Hp. unfold AllProxies, proxyGroup.
  rewrite (AllProxiesLoop_find _ _ _ Hp).
  destruct (list_find _ (Stmt f)) as [[i stmt]|]; [|done].
  cbn zeta. destruct (isolate (parseUseExtension stmt)); [done|].
  apply Proxies_sameUsage.
Qed.

(** The example of the claim: two shared usages and an isolated one. *)
Lemma AllProxies_sharedUsages :
  AllProxies Examples.sharedUsages "p1" = ["p1"; "p2"]
  ∧ AllProxies Examples.sharedUsages "p2" = ["p1"; "p2"]
  ∧ AllProxies Examples.sharedUsages "p3" = ["p3"]
  ∧ AllProxies Examples.sharedUsages "q" = [].
Proof.
  unfold AllProxies, Proxies. cbn.
  rewrite !String.eqb_refl. cbn. done.
Qed.

(** C3 fails on the code for the empty proxy name: the first statement
    that is not a [use_extension] assignment yields the empty proxy, which
    equals the name asked for, and its empty file and name are looked up;
    no statement of the manifest defines the empty name, and a usage of
    the extension with empty file and name is returned. *)
Theorem AllProxies_empty_name :
  Forall (fun stmt => ¬ definesProxy stmt "") (Stmt Examples.emptyNames)
  ∧ proxyGroup Examples.emptyNames "" = []
  ∧ AllProxies Examples.emptyNames "" = ["x"].
Proof.
  split; [|split].
  - apply Forall_forall. intros stmt _ [Hne _]. done.
  - reflexivity.
  - unfold AllProxies, Proxies. cbn.
    rewrite !String.eqb_refl. reflexivity.
Qed.

End ProxyGroups.

(** ** The last usage of a proxy *)

Lemma parseTag_not_assignment (stmt : Expr) :
  parseTag stmt ≠ "" → proxy (parseUseExtension stmt) = "".
Proof. destruct stmt; simpl; try done. Qed.

Lemma usesProxy_unique (stmt : Expr) (p q : string) :
  usesProxy stmt p → usesProxy stmt q → p = q.
Proof.
  intros [[Hp Hdp]|[Hp Htp]] [[Hq Hdq]|[Hq Htq]]; try congruence.
  - rewrite parseTag_not_assignment in Hdp by congruence. congruence.
  - rewrite parseTag_not_assignment in Hdq by congruence. congruence.
Qed.

Lemma usageIn_Some (proxies : list string) (stmt : Expr) (p : string) :
  usageIn (list_to_set proxies) stmt = Some p ↔ p ∈ proxies ∧ usesProxy stmt p.
Proof.
  unfold usageIn. split.
  - destruct (String.eqb (proxy (parseUseExtension stmt)) "") eqn:E1; cbn [negb andb].
    + destruct (String.eqb (parseTag stmt) "") eqn:E2; cbn [negb andb]; [done|].
      case_bool_decide as Hin; [|done]. intros [= <-].
      apply eqb_string_false in E2. apply elem_of_list_to_set in Hin.
      split; [done|]. by right.
    + apply eqb_string_false in E1.
      case_bool_decide as Hin.
      * intros [= <-]. apply elem_of_list_to_set in Hin. split; [done|]. by left.
      * destruct (String.eqb (parseTag stmt) "") eqn:E2; cbn [negb andb]; [done|].
        case_bool_decide as Hin2; [|done]. intros [= <-].
        apply eqb_string_false in E2. apply elem_of_list_to_set in Hin2.
        split; [done|]. by right.
  - intros [Hin [[Hp Hd]|[Hp Ht]]].
    + rewrite Hd. apply eqb_string_false in Hp. rewrite Hp. cbn [negb andb].
      rewrite bool_decide_eq_true_2; [done|]. by apply elem_of_list_to_set.
    + rewrite parseTag_not_assignment by congruence. cbn [String.eqb negb andb].
      rewrite Ht. apply eqb_string_false in Hp. rewrite Hp. cbn [negb andb].
      rewrite bool_decide_eq_true_2; [done|]. by apply elem_of_list_to_set.
Qed.

Lemma usageIn_None (proxies : list string) (stmt : Expr) :
  usageIn (list_to_set proxies) stmt = None ↔ ∀ p, p ∈ proxies → ¬ usesProxy stmt p.
Proof.
  split.
  - intros Hnone p Hin Huse.
    assert (usageIn (list_to_set proxies) stmt = Some p) as Hsome
      by (by apply usageIn_Some).
    congruence.
  - intros Hno. destruct (usageIn (list_to_set proxies) stmt) as [p|] eqn:E; [|done].
    apply usageIn_Some in E as [Hin Huse]. by destruct (Hno p Hin).
Qed.

Lemma lastProxyUsageLoop_step (stmt : Expr) (rest : list Expr) (i : Z)
    (proxiesSet : gset string) (lastUsage : Z) (lastProxy : string) :
  lastProxyUsageLoop (stmt :: rest) i proxiesSet lastUsage lastProxy
  = match usageIn proxiesSet stmt with
    | Some p => lastProxyUsageLoop rest (i + 1) proxiesSet i p
    | None => lastProxyUsageLoop rest (i + 1) proxiesSet lastUsage lastProxy
    end.
Proof.
  cbn [lastProxyUsageLoop]. unfold usageIn.
  destruct (negb (String.eqb (proxy (parseUseExtension stmt)) "")
            && bool_decide (proxy (parseUseExtension stmt) ∈ proxiesSet)); [done|].
  by destruct (negb (String.eqb (parseTag stmt) "")
               && bool_decide (parseTag stmt ∈ proxiesSet)).
Qed.

Lemma lastProxyUsageLoop_none (stmts : list Expr) (i : Z) (proxiesSet : gset string)
    (lastUsage : Z) (lastProxy : string) :
  (∀ stmt, stmt ∈ stmts → usageIn proxiesSet stmt = None) →
  lastProxyUsageLoop stmts i proxiesSet lastUsage lastProxy = (lastUsage, lastProxy).
Proof.
  revert i. induction stmts as [|stmt rest IH]; intros i Hnone; [done|].
  rewrite lastProxyUsageLoop_step, Hnone by left.
  apply IH. intros stmt' Hin. apply Hnone. by right.
Qed.

Lemma lastProxyUsageLoop_last (stmts : list Expr) (k : nat) (stmt : Expr) (p : string)
    (i : Z) (proxiesSet : gset string) (lastUsage : Z) (lastProxy : string) :
  stmts !! k = Some stmt →
  usageIn proxiesSet stmt = Some p →
  (∀ j stmt', k < j → stmts !! j = Some stmt' → usageIn proxiesSet stmt' = None) →
  lastProxyUsageLoop stmts i proxiesSet lastUsage lastProxy = ((i + Z.of_nat k)%Z, p).
Proof.
  revert k i lastUsage lastProxy.
  induction stmts as [|s rest IH]; intros k i lastUsage lastProxy Hk Hp Hafter; [done|].
  rewrite lastProxyUsageLoop_step. destruct k as [|k].
  - injection Hk as ->. rewrite Hp.
    rewrite lastProxyUsageLoop_none.
    + f_equal. lia.
    + intros stmt' [j Hj]%list_elem_of_lookup.
      apply (Hafter (S j)); [lia|done].
  - assert (∀ lu lp, lastProxyUsageLoop rest (i + 1) proxiesSet lu lp
                     = ((i + Z.of_nat (S k))%Z, p)) as Hrest.
    { intros lu lp. rewrite (IH k (i + 1)%Z lu lp Hk Hp).
      - f_equal. lia.
      - intros j stmt' Hj Hl. apply (Hafter (S j)); [lia|done]. }
    destruct (usageIn proxiesSet s); apply Hrest.
Qed.

(** ** Slices and [append] *)

Lemma cells_app_old (h : heap) (arr : list Expr) (a : nat) :
  a < length h → cells (h ++ [arr]) a = cells h a.
Proof. intros Ha. unfold cells. by rewrite lookup_app_l. Qed.

Lemma cells_app_new (h : heap) (arr : list Expr) :
  cells (h ++ [arr]) (length h) = arr.
Proof.
  unfold cells. rewrite lookup_app_r by done.
  by rewrite Nat.sub_diag.
Qed.

Lemma cells_insert (h : heap) (a b : nat) (arr : list Expr) :
  a < length h →
  cells (<[a := arr]> h) b = if decide (b = a) then arr else cells h b.
Proof.
  intros Ha. unfold cells. destruct (decide (b = a)) as [->|Hne].
  - by rewrite list_lookup_insert_eq.
  - by rewrite list_lookup_insert_ne.
Qed.

Lemma contents_length (h : heap) (s : slice) :
  slice_ok h s → length (contents h s) = len s.
Proof.
  intros (_ & Hlen & Hcap). unfold contents.
  rewrite length_take, length_drop. lia.
Qed.

Lemma contents_literal (h : heap) (xs : list Expr) :
  contents (literal h xs).1 (literal h xs).2 = xs.
Proof.
  unfold literal, contents. cbn [fst snd array offset len].
  rewrite cells_app_new, drop_0. by rewrite take_ge.
Qed.

Lemma contents_literal_eq (h : heap) (xs : list Expr) :
  contents (h ++ [xs]) (mkSlice (length h) 0 (length xs) (length xs)) = xs.
Proof. apply (contents_literal h xs). Qed.

(** [append] within the capacity writes behind the slice, in its array. *)
Lemma append_in_place (growslice : nat → nat → nat) (h : heap) (s : slice)
    (xs : list Expr) :
  len s + length xs ≤ cap s →
  append growslice h s xs
  = (<[array s := write (offset s + len s) xs (cells h (array s))]> h,
     mkSlice (array s) (offset s) (len s + length xs) (cap s)).
Proof. intros Hfit. unfold append. by rewrite bool_decide_eq_true_2. Qed.

(** [append] beyond the capacity copies into a new array. *)
Lemma append_grow (growslice : nat → nat → nat) (h : heap) (s : slice)
    (xs : list Expr) :
  cap s < len s + length xs →
  ∃ spare,
    append growslice h s xs
    = (h ++ [contents h s ++ xs ++ replicate spare NilExpr],
       mkSlice (length h) 0 (len s + length xs) (len s + length xs + spare)).
Proof.
  intros Hgrow. unfold append. rewrite bool_decide_eq_false_2 by lia.
  exists (Nat.max (len s + length xs) (growslice (cap s) (len s + length xs))
          - (len s + length xs)).
  do 3 f_equal. lia.
Qed.

Lemma write_contents (arr xs : list Expr) (off n : nat) :
  off + n + length xs ≤ length arr →
  take (n + length xs) (drop off (write (off + n) xs arr))
  = take n (drop off arr) ++ xs.
Proof.
  intros Hfit. unfold write.
  rewrite drop_app_le by (rewrite length_take; lia).
  rewrite <- take_drop_commute.
  rewrite take_app_ge by (rewrite length_take, length_drop; lia).
  rewrite length_take, length_drop.
  replace (n + length xs - n `min` (length arr - off)) with (length xs) by lia.
  by rewrite take_app_length.
Qed.

(** The slice [append] returns holds the elements of its arguments, and
    the arrays of the heap other than the one of the first argument are
    as before. *)
Lemma append_spec (growslice : nat → nat → nat) (h h' : heap) (s s' : slice)
    (xs : list Expr) :
  slice_ok h s →
  append growslice h s xs = (h', s') →
  contents h' s' = contents h s ++ xs
  ∧ slice_ok h' s'
  ∧ length h ≤ length h'
  ∧ len s' = len s + length xs
  ∧ (∀ a, a < length h → a ≠ array s → cells h' a = cells h a)
  ∧ (cap s < len s + length xs → cells h' (array s) = cells h (array s)).
Proof.
  intros (Harr & Hlen & Hcap) Happ.
  destruct (decide (len s + length xs ≤ cap s)) as [Hfit|Hgrow].
  - rewrite append_in_place in Happ by done. injection Happ as <- <-.
    assert (length (write (offset s + len s) xs (cells h (array s)))
            = length (cells h (array s))) as Hwlen.
    { unfold write. rewrite !length_app, length_take, length_drop. lia. }
    split; [|split; [|split; [|split; [|split]]]].
    + unfold contents. cbn [array offset len].
      rewrite cells_insert by done. rewrite decide_True by done.
      apply write_contents. lia.
    + unfold slice_ok. cbn [array offset len cap].
      rewrite length_insert, cells_insert by done.
      rewrite decide_True by done. rewrite Hwlen. lia.
    + by rewrite length_insert.
    + done.
    + intros a Ha Hne. rewrite cells_insert by done. by rewrite decide_False.
    + lia.
  - destruct (append_grow growslice h s xs) as [spare Hspare]; [lia|].
    rewrite Hspare in Happ. injection Happ as <- <-.
    assert (length (contents h s) = len s) as Hclen
      by (by apply contents_length).
    split; [|split; [|split; [|split; [|split]]]].
    + unfold contents at 1. cbn [array offset len].
      rewrite cells_app_new, drop_0.
      rewrite app_assoc. rewrite take_app_length'; [done|].
      rewrite length_app. lia.
    + unfold slice_ok. cbn [array offset len cap].
      rewrite cells_app_new, !length_app, length_replicate. cbn [length]. lia.
    + rewrite length_app. lia.
    + done.
    + intros a Ha _. by apply cells_app_old.
    + intros _. by apply cells_app_old.
Qed.

Lemma contents_frame (h h' : heap) (s : slice) :
  cells h' (array s) = cells h (array s) → contents h' s = contents h s.
Proof. unfold contents. by intros ->. Qed.

Lemma contents_sliceTo (h : heap) (s : slice) (hi : nat) :
  hi ≤ len s →
  contents h (mkSlice (array s) (offset s) hi (cap s)) = take hi (contents h s).
Proof.
  intros Hhi. unfold contents. cbn [array offset len].
  rewrite take_take. f_equal. lia.
Qed.

Lemma contents_sliceFrom (h : heap) (s : slice) (lo : nat) :
  lo ≤ len s →
  contents h (mkSlice (array s) (offset s + lo) (len s - lo) (cap s - lo))
  = drop lo (contents h s).
Proof.
  intros Hlo. unfold contents. cbn [array offset len].
  replace (len s) with (lo + (len s - lo)) at 2 by lia.
  by rewrite <- take_drop_commute, drop_drop.
Qed.

(** ** Inserting a [use_repo] call *)

Lemma NewUseRepo_no_usage (growslice : nat → nat → nat) (h : heap) (f : FileObj)
    (proxies : list string) (lastProxy : string) :
  lastProxyUsage (load h f) proxies = ((-1)%Z, lastProxy) →
  NewUseRepo growslice h f proxies = Ok (h, f, None).
Proof. intros Hlast. unfold NewUseRepo. by rewrite Hlast. Qed.

Lemma NewUseRepo_insert (growslice : nat → nat → nat) (h : heap) (f : FileObj)
    (proxies : list string) (k : nat) (p : string) :
  slice_ok h (objStmt f) →
  lastProxyUsage (load h f) proxies = (Z.of_nat k, p) →
  k < len (objStmt f) →
  ∃ h' f',
    NewUseRepo growslice h f proxies = Ok (h', f', Some (useRepoCall p))
    ∧ contents h' (objStmt f')
      = take (S k) (contents h (objStmt f)) ++ [Call (useRepoCall p)]
        ++ drop (S k) (contents h (objStmt f))
    ∧ objPath f' = objPath f
    ∧ objType f' = TypeModule
    ∧ (cap (objStmt f) = len (objStmt f) →
       contents h' (objStmt f) = contents h (objStmt f)).
Proof.
  intros Hok Hlast Hk. pose proof Hok as (Harr & Hlen & Hcap).
  unfold NewUseRepo. rewrite Hlast.
  replace (Z.of_nat k =? -1)%Z with false by (symmetry; apply Z.eqb_neq; lia).
  replace (Z.to_nat (Z.of_nat k + 1)) with (S k) by lia.
  fold (useRepoCall p). set (s := objStmt f) in *.
  unfold sliceTo. rewrite bool_decide_eq_true_2 by lia. cbn [bind].
  unfold literal. unfold sliceFrom. rewrite bool_decide_eq_true_2 by lia. cbn [bind].
  set (h1 := h ++ [[Call (useRepoCall p)]]).
  set (lit := mkSlice (length h) 0 (length [Call (useRepoCall p)])
                (length [Call (useRepoCall p)])).
  set (head := mkSlice (array s) (offset s) (S k) (cap s)).
  set (tail := mkSlice (array s) (offset s + S k) (len s - S k) (cap s - S k)).
  assert (cells h1 (array s) = cells h (array s)) as Hcells1
    by (by apply cells_app_old).
  assert (contents h1 tail = drop (S k) (contents h s)) as Htail.
  { rewrite <- (contents_sliceFrom h s (S k)) by lia.
    by apply contents_frame. }
  rewrite Htail.
  assert (slice_ok h1 lit) as Hlit.
  { unfold slice_ok, lit, h1. cbn [array offset len cap length].
    rewrite cells_app_new, length_app. cbn [length]. lia. }
  assert (contents h1 lit = [Call (useRepoCall p)]) as Hlitc
    by apply contents_literal_eq.
  destruct (append growslice h1 lit (drop (S k) (contents h s))) as [h2 inner] eqn:Einner.
  destruct (append_spec _ _ _ _ _ _ Hlit Einner)
    as (Hinner & _ & Hlen2 & _ & Hframe2 & _).
  assert (cells h2 (array s) = cells h (array s)) as Hcells2.
  { rewrite Hframe2; [done| |].
    - unfold h1. rewrite length_app. lia.
    - unfold lit. cbn [array]. lia. }
  assert (slice_ok h2 head) as Hhead.
  { unfold slice_ok, head. cbn [array offset len cap].
    rewrite Hcells2. unfold h1 in Hlen2. rewrite length_app in Hlen2. lia. }
  destruct (append growslice h2 head (contents h2 inner)) as [h3 stmt] eqn:Estmt.
  destruct (append_spec _ _ _ _ _ _ Hhead Estmt)
    as (Hstmt & _ & _ & _ & _ & Hgrow3).
  eexists _, _. split; [reflexivity|]. cbn [objStmt objPath objType].
  split; [|split; [done|split; [done|]]].
  - rewrite Hstmt, Hinner, Hlitc. f_equal.
    unfold head. rewrite (contents_frame h2 h) by done.
    apply contents_sliceTo. lia.
  - intros Hfull. apply contents_frame. rewrite <- Hcells2.
    apply Hgrow3. rewrite Hinner. unfold head. cbn [len cap].
    rewrite length_app, Hlitc, length_drop, (contents_length h s) by done.
    cbn [length]. lia.
Qed.



(** What [NewUseRepo] returns for the manifest above. *)
Example NewUseRepo_fullFile :
  ∃ h' f',
    NewUseRepo Examples.doubling Examples.fullHeap Examples.fullFile ["q"; "p"]
    = Ok (h', f', Some (useRepoCall "p"))
    ∧ contents h' (objStmt f')
      = [Examples.useExtension "p" "a.bzl" "e" []; Examples.tag "p" "install";
         Call (useRepoCall "p");
         Examples.call "bazel_dep" [Examples.keyword "name" (StringExpr "m")] 0]
    ∧ contents h' (objStmt Examples.fullFile)
      = contents Examples.fullHeap (objStmt Examples.fullFile).
Proof. eexists _, _. split; [vm_compute; reflexivity|]. split; reflexivity. Qed.

(** When the slice [f.Stmt] has no spare capacity, the statements of the
    file passed in are as before. *)
Lemma NewUseRepo_full_slice_unchanged (growslice : nat → nat → nat) (h h' : heap)
    (f f' : FileObj) (proxies : list string) (useRepo : option CallExpr) :
  slice_ok h (objStmt f) →
  cap (objStmt f) = len (objStmt f) →
  NewUseRepo growslice h f proxies = Ok (h', f', useRepo) →
  contents h' (objStmt f) = contents h (objStmt f).
Proof.
  intros Hok Hfull Hrun.
  destruct (lastProxyUsage (load h f) proxies) as [lastUsage lastProxy] eqn:Hlast.
  destruct (decide (lastUsage = -1)%Z) as [->|Hne].
  { rewrite (NewUseRepo_no_usage _ _ _ _ _ Hlast) in Hrun. by injection Hrun as <- _ _. }
  unfold lastProxyUsage in Hlast. cbn [load Stmt] in Hlast.
  assert (∃ k, lastUsage = Z.of_nat k ∧ k < len (objStmt f)) as (k & -> & Hk).
  { rewrite <- (contents_length h) by done.
    clear Hrun. revert Hlast Hne.
    generalize (contents h (objStmt f)). intros stmts.
    assert (∀ (i : nat) lu lp,
              (lu = (-1)%Z ∨ ∃ k : nat, lu = Z.of_nat k ∧ k < i) →
              lastProxyUsageLoop stmts (Z.of_nat i) (list_to_set proxies) lu lp
              = (lastUsage, lastProxy) →
              lastUsage ≠ (-1)%Z →
              ∃ k, lastUsage = Z.of_nat k ∧ k < i + length stmts) as Hgen.
    { induction stmts as [|s rest IH]; intros i lu lp Hlu Hloop Hne.
      - cbn in Hloop. injection Hloop as -> ->.
        destruct Hlu as [?|(k & -> & Hk)]; [done|]. exists k. split; [done|]. cbn. lia.
      - rewrite lastProxyUsageLoop_step in Hloop.
        replace (Z.of_nat i + 1)%Z with (Z.of_nat (S i)) in Hloop by lia.
        destruct (usageIn (list_to_set proxies) s).
        + apply IH in Hloop as (k & -> & Hk); [|right; exists i; split; [done|lia]|done].
          exists k. split; [done|]. cbn [length]. lia.
        + apply IH in Hloop as (k & -> & Hk); [| |done].
          * exists k. split; [done|]. cbn [length]. lia.
          * destruct Hlu as [?|(k & -> & Hk)]; [by left|].
            right. exists k. split; [done|lia]. }
    intros Hloop Hne. apply (Hgen 0 (-1)%Z "" (or_introl eq_refl)) in Hloop; [|done].
    destruct Hloop as (k & -> & Hk). exists k. split; [done|]. lia. }
  destruct (NewUseRepo_insert growslice h f proxies k lastProxy Hok)
    as (h1 & f1 & Hrun1 & _ & _ & _ & Hkeep); [|done|].
  - unfold lastProxyUsage. cbn [load Stmt]. exact Hlast.
  - rewrite Hrun1 in Hrun. injection Hrun as <- _ _. by apply Hkeep.
Qed.

(** C1 fails on the code when the array behind [f.Stmt] has room and the
    last usage is not the last statement: [append] writes the new call and
    the statements behind it into that array, and the file passed in then
    shows the new call where its second statement was. *)
Theorem NewUseRepo_overwrites_original :
  ∀ growslice : nat → nat → nat,
    ∃ h' f',
      NewUseRepo growslice Examples.spareHeap Examples.spareFile ["p"]
      = Ok (h', f', Some (useRepoCall "p"))
      ∧ contents Examples.spareHeap (objStmt Examples.spareFile)
        = [Examples.useExtension "p" "a.bzl" "e" [];
           Examples.call "bazel_dep" [Examples.keyword "name" (StringExpr "m")] 0]
      ∧ contents h' (objStmt Examples.spareFile)
        = [Examples.useExtension "p" "a.bzl" "e" []; Call (useRepoCall "p")]
      ∧ contents h' (objStmt f')
        = [Examples.useExtension "p" "a.bzl" "e" []; Call (useRepoCall "p");
           Examples.call "bazel_dep" [Examples.keyword "name" (StringExpr "m")] 0].
Proof.
  intros growslice. eexists _, _.
  split; [reflexivity|]. split; [reflexivity|]. split; reflexivity.
Qed.

(** ** Apparent names across fragments *)

Section Traversal.
Context `{Collaborators}.
Variable fileReader : string → option File.

Lemma mergedNames_snoc (reads : list string) (f : string) :
  mergedNames fileReader (reads ++ [f])
  = match mergedNames fileReader reads, fileReader f with
    | Some m, Some bf => Some (fst (collectApparentNamesAndIncludes bf) ∪ m)
    | _, _ => None
    end.
Proof. unfold mergedNames. by rewrite fold_left_app. Qed.

Lemma mergedNames_None (reads : list string) :
  mergedNames fileReader reads = None ↔ ∃ p, p ∈ reads ∧ fileReader p = None.
Proof.
  induction reads as [|f reads IH] using rev_ind.
  - split; [done|]. intros (p & Hp & _). by apply elem_of_nil in Hp.
  - rewrite mergedNames_snoc. split.
    + destruct (mergedNames fileReader reads) as [m|] eqn:Em.
      * destruct (fileReader f) eqn:Ef; [done|]. intros _.
        exists f. split; [|done]. apply elem_of_app. right. by left.
      * intros _. destruct (proj1 IH eq_refl) as (p & Hp & Hnone).
        exists p. split; [|done]. apply elem_of_app. by left.
    + intros (p & Hp & Hnone). apply elem_of_app in Hp as [Hp|Hp].
      * assert (mergedNames fileReader reads = None) as Hnone'
          by (apply IH; by exists p).
        by rewrite Hnone'.
      * apply list_elem_of_singleton in Hp as ->. rewrite Hnone.
        by destruct (mergedNames fileReader reads).
Qed.

(** What a run of the loop leaves: no path is read twice; the map it
    returns is the one merged from the fragments read, in that order, and
    while it runs every fragment read was there. *)
Lemma collectLoop_reads (fuel : nat) (apparentNames : gmap string string)
    (seenFiles : gset string) (filesToProcess reads : list string) :
  NoDup reads →
  (∀ p, p ∈ reads → p ∈ seenFiles) →
  mergedNames fileReader reads = Some apparentNames →
  let run := collectLoop fuel fileReader apparentNames seenFiles filesToProcess reads in
  NoDup run.2
  ∧ match run.1 with
    | OutOfFuel => is_Some (mergedNames fileReader run.2)
    | Returned result => result = mergedNames fileReader run.2
    end.
Proof.
  revert apparentNames seenFiles filesToProcess reads.
  induction fuel as [|fuel IH];
    intros apparentNames seenFiles filesToProcess reads Hnodup Hseen Hmerged;
    cbn [collectLoop].
  - cbn [fst snd]. split; [done|]. by rewrite Hmerged.
  - destruct filesToProcess as [|f rest].
    + cbn [fst snd]. split; [done|]. by rewrite Hmerged.
    + case_bool_decide as Hf.
      * by apply IH.
      * assert (NoDup (reads ++ [f])) as Hnodup'.
        { apply NoDup_app. split; [done|]. split; [|apply NoDup_singleton].
          intros p Hp Hpf%list_elem_of_singleton. subst p. by apply Hf, Hseen. }
        destruct (fileReader f) as [bf|] eqn:Ef.
        -- destruct (collectApparentNamesAndIncludes bf) as [names includeLabels] eqn:Ec.
           apply IH; [done| |].
           ++ intros p [Hp|Hp]%elem_of_app; set_solver.
           ++ rewrite mergedNames_snoc, Hmerged, Ef, Ec. done.
        -- cbn [fst snd]. split; [done|]. rewrite mergedNames_snoc, Hmerged, Ef. done.
Qed.

Lemma weight_cons (seenFiles : gset string) (p : string) (files : list string) :
  weight fileReader seenFiles (p :: files)
  = (if bool_decide (p ∈ seenFiles) then 0 else cost fileReader p)
    + weight fileReader seenFiles files.
Proof. reflexivity. Qed.

Lemma weight_other (seenFiles : gset string) (f : string) (files : list string) :
  f ∉ files →
  weight fileReader ({[f]} ∪ seenFiles) files = weight fileReader seenFiles files.
Proof.
  induction files as [|p files IH]; intros Hf; [done|].
  rewrite !weight_cons.
  rewrite IH by (intros ?; apply Hf; by right). f_equal.
  assert (p ≠ f) by (intros ->; apply Hf; by left).
  destruct (decide (p ∈ seenFiles)).
  - rewrite !bool_decide_eq_true_2; [done|done|set_solver].
  - rewrite !bool_decide_eq_false_2; [done|done|set_solver].
Qed.

Lemma weight_read (seenFiles : gset string) (f : string) (files : list string) :
  NoDup files → f ∈ files → f ∉ seenFiles →
  weight fileReader ({[f]} ∪ seenFiles) files + cost fileReader f
  = weight fileReader seenFiles files.
Proof.
  intros Hnodup. induction Hnodup as [|p files Hp Hnodup IH]; intros Hf Hseen.
  - by apply elem_of_nil in Hf.
  - rewrite !weight_cons.
    destruct (decide (p = f)) as [->|Hne].
    + rewrite weight_other by done.
      rewrite bool_decide_eq_true_2 by set_solver.
      rewrite bool_decide_eq_false_2 by done. lia.
    + apply elem_of_cons in Hf as [->|Hf]; [done|].
      specialize (IH Hf Hseen).
      destruct (decide (p ∈ seenFiles)).
      * rewrite !bool_decide_eq_true_2; [lia|done|set_solver].
      * rewrite !bool_decide_eq_false_2; [lia|done|set_solver].
Qed.

(** The loop returns once the fuel exceeds the length of the queue and
    the cost of the fragments not yet seen. *)
Lemma collectLoop_returns (files : list string) (fuel : nat)
    (apparentNames : gmap string string) (seenFiles : gset string)
    (filesToProcess reads : list string) :
  NoDup files →
  (∀ p, is_Some (fileReader p) → p ∈ files) →
  length filesToProcess + weight fileReader seenFiles files < fuel →
  ∃ result,
    (collectLoop fuel fileReader apparentNames seenFiles filesToProcess reads).1
    = Returned result.
Proof.
  intros Hnodup Hfiles.
  revert apparentNames seenFiles filesToProcess reads.
  induction fuel as [|fuel IH];
    intros apparentNames seenFiles filesToProcess reads Hfuel; [lia|].
  cbn [collectLoop]. destruct filesToProcess as [|f rest]; [by eexists|].
  cbn [length] in Hfuel. case_bool_decide as Hf.
  - apply IH. lia.
  - destruct (fileReader f) as [bf|] eqn:Ef; [|by eexists].
    destruct (collectApparentNamesAndIncludes bf) as [names includeLabels] eqn:Ec.
    apply IH. rewrite length_app.
    assert (f ∈ files) as Hin by (apply Hfiles; by rewrite Ef).
    pose proof (weight_read seenFiles f files Hnodup Hin Hf) as Hw.
    unfold cost in Hw. rewrite Ef in Hw. unfold includesOf in Hw.
    rewrite Ec in Hw. cbn [snd] in Hw. lia.
Qed.


Lemma collectApparentNames_reads (fuel : nat) (relPath : string) :
  NoDup (collectApparentNames fuel fileReader relPath).2
  ∧ match (collectApparentNames fuel fileReader relPath).1 with
    | OutOfFuel =>
        is_Some (mergedNames fileReader (collectApparentNames fuel fileReader relPath).2)
    | Returned result =>
        result = mergedNames fileReader (collectApparentNames fuel fileReader relPath).2
    end.
Proof.
  apply (collectLoop_reads fuel ∅ ∅ [relPath] []); [apply NoDup_nil_2| |done].
  intros q Hq. by apply elem_of_nil in Hq.
Qed.

(** C9: once a path that was read has no fragment, the function has
    returned, and what it returned is the absent map, not a mapping of the
    fragments read before. *)
Theorem collectApparentNames_absent_fragment :
  ∀ (fuel : nat) (relPath p : string),
    p ∈ (collectApparentNames fuel fileReader relPath).2 →
    fileReader p = None →
    (collectApparentNames fuel fileReader relPath).1 = Returned None.
Proof.
  intros fuel relPath p Hp Hnone.
  destruct (collectApparentNames_reads fuel relPath) as [_ Hmerged].
  assert (mergedNames fileReader (collectApparentNames fuel fileReader relPath).2 = None)
    as Habsent by (apply mergedNames_None; by exists p).
  destruct (collectApparentNames fuel fileReader relPath).1 as [|result].
  - rewrite Habsent in Hmerged. by destruct Hmerged.
  - by rewrite Hmerged, Habsent.
Qed.

(** A map is only returned when every fragment read was there. *)
Lemma collectApparentNames_complete (fuel : nat) (relPath : string)
    (apparentNames : gmap string string) :
  (collectApparentNames fuel fileReader relPath).1 = Returned (Some apparentNames) →
  ∀ p, p ∈ (collectApparentNames fuel fileReader relPath).2 → is_Some (fileReader p).
Proof.
  intros Hrun p Hp. destruct (fileReader p) eqn:Ep; [done|].
  destruct (collectApparentNames_reads fuel relPath) as [_ Hmerged].
  rewrite Hrun in Hmerged.
  assert (mergedNames fileReader (collectApparentNames fuel fileReader relPath).2 = None)
    as Habsent by (apply mergedNames_None; by exists p).
  congruence.
Qed.

End Traversal.

(** ** Traversals of concrete fragments *)

Section Fragments.
#[local] Existing Instance SpecModel.collaborators.

(** The two fragments that include each other are each read once, and
    the names of both are returned. *)
Example collectApparentNames_cycle :
  collectApparentNames 8 Examples.cyclicReader "MODULE.bazel"
  = (Returned (Some {[ "rules_go" := "rules_go"; "rules_cc" := "my_rules_cc" ]}),
     ["MODULE.bazel"; "deps.MODULE.bazel"]).
Proof. vm_compute. reflexivity. Qed.


Lemma collectApparentNames_absent_fragment_witness :
  "tools/missing.MODULE.bazel"
    ∈ (collectApparentNames 3 Examples.missingReader "MODULE.bazel").2
  ∧ Examples.missingReader "tools/missing.MODULE.bazel" = None
  ∧ (collectApparentNames 3 Examples.missingReader "MODULE.bazel").1 = Returned None.
Proof.
  assert ("tools/missing.MODULE.bazel"
            ∈ (collectApparentNames 3 Examples.missingReader "MODULE.bazel").2) as H1
    by by_evaluation.
  assert (Examples.missingReader "tools/missing.MODULE.bazel" = None) as H2
    by reflexivity.
  do 2 (split; [assumption|]).
  exact (collectApparentNames_absent_fragment Examples.missingReader 3 "MODULE.bazel"
           "tools/missing.MODULE.bazel" H1 H2).
Defined.

(** The run on the reader whose root includes a missing fragment. *)
Example collectApparentNames_missing :
  collectApparentNames 3 Examples.missingReader "MODULE.bazel"
  = (Returned None, ["MODULE.bazel"; "tools/missing.MODULE.bazel"]).
Proof. vm_compute. reflexivity. Qed.

(** On the reader that knows a fragment at every path the queue always
    holds one path, longer than every path seen. *)
Lemma collectLoop_endless (fuel : nat) (apparentNames : gmap string string)
    (seenFiles : gset string) (q : string) (reads : list string) :
  (∀ p, p ∈ seenFiles → String.length p < String.length q) →
  (collectLoop fuel Examples.endlessReader apparentNames seenFiles [q] reads).1 = OutOfFuel.
Proof.
  revert apparentNames seenFiles q reads.
  induction fuel as [|fuel IH]; intros apparentNames seenFiles q reads Hseen; [done|].
  cbn [collectLoop].
  rewrite bool_decide_eq_false_2
    by (intros Hq; specialize (Hseen q Hq); lia).
  change (Examples.endlessReader q)
    with (Some (mkFile q [Examples.include ("x" +:+ q)] TypeModule)).
  cbn iota.
  change (collectApparentNamesAndIncludes
            (mkFile q [Examples.include ("x" +:+ q)] TypeModule))
    with ((∅ : gmap string string), ["x" +:+ q]).
  cbn iota.
  change (includePaths ["x" +:+ q]) with ["x" +:+ q].
  cbn [app]. apply IH. intros p [Hp|Hp]%elem_of_union.
  - apply elem_of_singleton in Hp as ->.
    change (String.length ("x" +:+ q)) with (S (String.length q)). lia.
  - specialize (Hseen p Hp).
    change (String.length ("x" +:+ q)) with (S (String.length q)). lia.
Qed.

End Fragments.


(** * Further properties of the operations *)

(** ** Repositories present after adding and removing *)

Lemma existingRepos_elem_inv (st : store) (useRepos : list nat) (x : string) :
  x ∈ existingRepos st useRepos →
  ∃ p, p ∈ useRepos ∧ x ∈ map repoFromUseRepoArg (tail (argsAt st p)).
Proof.
  unfold existingRepos. intros Hx.
  apply list_elem_of_In, in_flat_map in Hx as (p & Hp & Hx).
  exists p. split; by apply list_elem_of_In.
Qed.

Lemma filter_none {A : Type} (P : A → Prop) `{!∀ x, Decision (P x)} (l : list A) :
  (∀ x, x ∈ l → ¬ P x) → filter P l = [].
Proof.
  induction l as [|a l IH]; intros Hl; [done|].
  rewrite filter_cons_False by (apply Hl; by left).
  apply IH. intros x Hx. apply Hl. by right.
Qed.

Lemma filter_all {A : Type} (P : A → Prop) `{!∀ x, Decision (P x)} (l : list A) :
  (∀ x, x ∈ l → P x) → filter P l = l.
Proof.
  induction l as [|a l IH]; intros Hl; [done|].
  rewrite filter_cons_True by (apply Hl; by left).
  f_equal. apply IH. intros x Hx. apply Hl. by right.
Qed.

Lemma repoFromUseRepoArg_StringExpr (repos : list string) :
  map repoFromUseRepoArg (map StringExpr repos) = repos.
Proof. induction repos as [|r rest IH]; cbn [map]; [done|]. by rewrite IH. Qed.

(** X1: when the insertion target has its proxy reference, [AddRepoUsages]
    returns, and the repositories the given statements import afterwards
    are those they imported before together with those requested. *)
Theorem AddRepoUsages_imports_requested :
  ∀ (st : store) (useRepos : list nat) (repos : list string) (target : nat),
    useRepos ≠ [] →
    Forall (fun p => p < length st) useRepos →
    getLastUseRepo st useRepos = Ok (Some target) →
    argsAt st target ≠ [] →
    ∃ st',
      AddRepoUsages st useRepos repos = Ok st'
      ∧ ∀ x, x ∈ existingRepos st' useRepos
             ↔ x ∈ existingRepos st useRepos ∨ x ∈ repos.
Proof.
  intros st useRepos repos target Hne Hvalid Ht Hargs.
  destruct (AddRepoUsages_result st useRepos repos Hne Hvalid)
    as (t & c & Ht' & Hin & Hc & Hrun).
  rewrite Ht in Ht'. injection Ht' as <-.
  eexists. split; [exact Hrun|].
  assert (target < length st) as Hlt by (by eapply lookup_lt_Some).
  assert (argsAt st target = List c) as HList by (unfold argsAt; by rewrite Hc).
  set (seen := list_to_set (existingRepos st useRepos) : gset string).
  set (st' := <[target := mkCallExpr (X c) (List c ++ addedArgs seen repos) (Pos c)]> st).
  assert (∀ p, map repoFromUseRepoArg (tail (argsAt st' p))
               = map repoFromUseRepoArg (tail (argsAt st p))
                 ++ (if decide (p = target)
                     then filter (fun repo => repo ∉ seen) repos else [])) as Hargs'.
  { intros p. unfold st'. rewrite argsAt_insert by done.
    destruct (decide (p = target)) as [->|Hp]; [|by rewrite app_nil_r].
    cbn [List]. rewrite HList in *.
    destruct (List c) as [|ext later]; [done|]. cbn [app tail].
    rewrite map_app. unfold addedArgs. by rewrite repoFromUseRepoArg_StringExpr. }
  intros x. split.
  - intros Hx. apply existingRepos_elem_inv in Hx as (p & Hp & Hx).
    rewrite Hargs' in Hx. apply elem_of_app in Hx as [Hx|Hx].
    + left. by apply (existingRepos_elem _ _ p).
    + right. destruct (decide (p = target)); [|by apply elem_of_nil in Hx].
      by apply list_elem_of_filter in Hx as [_ Hx].
  - intros [Hx|Hx].
    + apply existingRepos_elem_inv in Hx as (p & Hp & Hx).
      apply (existingRepos_elem _ _ p); [done|].
      rewrite Hargs'. apply elem_of_app. by left.
    + destruct (decide (x ∈ existingRepos st useRepos)) as [Hold|Hnew].
      * apply existingRepos_elem_inv in Hold as (p & Hp & Hold).
        apply (existingRepos_elem _ _ p); [done|].
        rewrite Hargs'. apply elem_of_app. by left.
      * apply (existingRepos_elem _ _ target); [done|].
        rewrite Hargs', decide_True by done. apply elem_of_app. right.
        apply list_elem_of_filter. split; [|done].
        unfold seen. by rewrite elem_of_list_to_set.
Qed.

Lemma AddRepoUsages_imports_requested_witness :
  [0; 1] ≠ []
  ∧ Forall (fun p => p < length Examples.twoUseRepos) [0; 1]
  ∧ getLastUseRepo Examples.twoUseRepos [0; 1] = Ok (Some 1)
  ∧ argsAt Examples.twoUseRepos 1 ≠ []
  ∧ ∃ st',
      AddRepoUsages Examples.twoUseRepos [0; 1] ["x"; "a"] = Ok st'
      ∧ ∀ x, x ∈ existingRepos st' [0; 1]
             ↔ x ∈ existingRepos Examples.twoUseRepos [0; 1] ∨ x ∈ ["x"; "a"].
Proof.
  assert ([0; 1] ≠ []) as H1 by discriminate.
  assert (Forall (fun p => p < length Examples.twoUseRepos) [0; 1]) as H2
    by (repeat constructor).
  assert (getLastUseRepo Examples.twoUseRepos [0; 1] = Ok (Some 1)) as H3 by reflexivity.
  assert (argsAt Examples.twoUseRepos 1 ≠ []) as H4 by discriminate.
  do 4 (split; [assumption|]).
  exact (AddRepoUsages_imports_requested
           Examples.twoUseRepos [0; 1] ["x"; "a"] 1 H1 H2 H3 H4).
Defined.

(** X2: a request for repositories that the given statements all import
    already leaves every statement as it is. *)
Theorem AddRepoUsages_present_unchanged :
  ∀ (st : store) (useRepos : list nat) (repos : list string),
    useRepos ≠ [] →
    Forall (fun p => p < length st) useRepos →
    (∀ x, x ∈ repos → x ∈ existingRepos st useRepos) →
    AddRepoUsages st useRepos repos = Ok st.
Proof.
  intros st useRepos repos Hne Hvalid Hall.
  destruct (AddRepoUsages_result st useRepos repos Hne Hvalid)
    as (t & c & _ & _ & Hc & Hrun).
  rewrite Hrun. f_equal. apply list_insert_id. rewrite Hc. f_equal.
  assert (addedArgs (list_to_set (existingRepos st useRepos)) repos = []) as ->.
  { unfold addedArgs.
    assert (filter (fun repo => repo ∉ (list_to_set (existingRepos st useRepos) : gset string))
              repos = []) as ->; [|done].
    apply filter_none. intros x Hx Hout. apply Hout.
    apply elem_of_list_to_set. by apply Hall. }
  rewrite app_nil_r. by destruct c.
Qed.

Lemma AddRepoUsages_present_unchanged_witness :
  [0; 1] ≠ []
  ∧ Forall (fun p => p < length Examples.twoUseRepos) [0; 1]
  ∧ (∀ x, x ∈ ["c"; "a"; "c"] → x ∈ existingRepos Examples.twoUseRepos [0; 1])
  ∧ AddRepoUsages Examples.twoUseRepos [0; 1] ["c"; "a"; "c"] = Ok Examples.twoUseRepos.
Proof.
  assert ([0; 1] ≠ []) as H1 by discriminate.
  assert (Forall (fun p => p < length Examples.twoUseRepos) [0; 1]) as H2
    by (repeat constructor).
  assert (∀ x, x ∈ ["c"; "a"; "c"] → x ∈ existingRepos Examples.twoUseRepos [0; 1]) as H3.
  { intros x Hx. change (existingRepos Examples.twoUseRepos [0; 1]) with ["a"; "c"].
    set_solver. }
  do 3 (split; [assumption|]).
  exact (AddRepoUsages_present_unchanged Examples.twoUseRepos [0; 1] ["c"; "a"; "c"] H1 H2 H3).
Defined.

Lemma removeLoop_nodes (st : store) (useRepos : list nat) (repos : list string) :
  Forall (fun p => p < length st) useRepos →
  ∃ st',
    removeLoop st useRepos (list_to_set repos) = Ok st'
    ∧ ∀ p, st' !! p = removedNode useRepos repos p <$> st !! p.
Proof.
  revert st. induction useRepos as [|u rest IH]; intros st Hvalid; cbn [removeLoop].
  - exists st. split; [done|]. intros p.
    destruct (st !! p) as [[x l z]|]; [|done]. cbn. unfold removedNode.
    by rewrite decide_False by apply not_elem_of_nil.
  - apply Forall_cons in Hvalid as [Hu Hrest].
    destruct (valid_lookup _ _ Hu) as [c Hc].
    rewrite (deref_lookup _ _ _ Hc). cbn [bind].
    destruct (List c) as [|ext later] eqn:HList.
    + destruct (IH st Hrest) as (st' & Hrun & Hst').
      exists st'. split; [done|]. intros p. rewrite Hst'.
      destruct (st !! p) as [cp|] eqn:Hp; [|done]. cbn. f_equal.
      unfold removedNode. f_equal.
      destruct (decide (p = u)) as [->|Hne].
      * rewrite Hc in Hp. injection Hp as <-. rewrite HList.
        rewrite (decide_True (P := u ∈ u :: rest)) by left.
        by destruct (decide (u ∈ rest)).
      * destruct (decide (p ∈ rest)) as [Hin|Hout].
        -- rewrite decide_True; [done|by right].
        -- rewrite decide_False; [done|].
           intros [->|?]%elem_of_cons; done.
    + rewrite (setList_lookup _ _ _ _ Hc). cbn [bind].
      rewrite keptArgs_withoutRepos.
      set (c1 := mkCallExpr (X c) (withoutRepos repos (ext :: later)) (Pos c)).
      destruct (IH (<[u := c1]> st)) as (st' & Hrun & Hst').
      { by rewrite length_insert. }
      exists st'. split; [done|]. intros p. rewrite Hst'.
      destruct (decide (p = u)) as [->|Hne].
      * rewrite list_lookup_insert_eq by done. rewrite Hc. cbn. f_equal.
        unfold removedNode, c1. cbn [X List Pos]. f_equal.
        rewrite (decide_True (P := u ∈ u :: rest)) by left. rewrite HList.
        destruct (decide (u ∈ rest)); [|done]. apply withoutRepos_idemp.
      * rewrite list_lookup_insert_ne by done.
        destruct (st !! p) as [cp|] eqn:Hp; [|done]. cbn. f_equal.
        unfold removedNode. f_equal.
        destruct (decide (p ∈ rest)) as [Hin|Hout].
        -- rewrite decide_True; [done|by right].
        -- rewrite decide_False; [done|].
           intros [->|?]%elem_of_cons; done.
Qed.

Lemma RemoveRepoUsages_nodes (st : store) (useRepos : list nat) (repos : list string) :
  useRepos ≠ [] → repos ≠ [] →
  Forall (fun p => p < length st) useRepos →
  ∃ st',
    RemoveRepoUsages st useRepos repos = Ok st'
    ∧ ∀ p, st' !! p = removedNode useRepos repos p <$> st !! p.
Proof.
  intros Hu Hr Hvalid. unfold RemoveRepoUsages.
  destruct useRepos as [|u rest]; [done|]. destruct repos as [|r more]; [done|].
  change (length (u :: rest) =? 0) with false.
  change (length (r :: more) =? 0) with false. cbn [orb].
  by apply removeLoop_nodes.
Qed.

Lemma withoutRepos_repos (repos : list string) (args : list Expr) :
  map repoFromUseRepoArg (tail (withoutRepos repos args))
  = filter (fun x => x ∉ repos) (map repoFromUseRepoArg (tail args)).
Proof.
  destruct args as [|ext later]; cbn [withoutRepos tail]; [done|].
  induction later as [|arg later IH]; [done|]. cbn [map].
  destruct (decide (repoFromUseRepoArg arg ∈ repos)) as [Hin|Hout].
  - rewrite !filter_cons_False by (intros ?; done). apply IH.
  - rewrite !filter_cons_True by done. cbn [map]. by rewrite IH.
Qed.

Lemma withoutRepos_id (repos : list string) (args : list Expr) :
  (∀ x, x ∈ map repoFromUseRepoArg (tail args) → x ∉ repos) →
  withoutRepos repos args = args.
Proof.
  destruct args as [|ext later]; cbn [withoutRepos tail]; [done|].
  intros Hnone. f_equal. apply filter_all. intros arg Harg.
  apply Hnone. apply list_elem_of_In, in_map. by apply list_elem_of_In.
Qed.

Lemma RemoveRepoUsages_args (st : store) (useRepos : list nat) (repos : list string) :
  Forall (fun p => p < length st) useRepos →
  ∃ st',
    RemoveRepoUsages st useRepos repos = Ok st'
    ∧ ∀ p, p ∈ useRepos → argsAt st' p = withoutRepos repos (argsAt st p).
Proof.
  intros Hvalid. unfold RemoveRepoUsages.
  destruct useRepos as [|u rest].
  { exists st. split; [done|]. intros p Hp. by apply elem_of_nil in Hp. }
  destruct repos as [|r more].
  { exists st. split; [done|]. intros p _. symmetry. apply withoutRepos_id.
    intros x _. apply not_elem_of_nil. }
  change (length (u :: rest) =? 0) with false.
  change (length (r :: more) =? 0) with false. cbn [orb].
  destruct (removeLoop_result st (u :: rest) (r :: more) Hvalid) as (st' & Hrun & _ & Hst').
  exists st'. split; [done|]. intros p Hp. rewrite Hst'. by rewrite decide_True.
Qed.



Lemma RemoveRepoUsages_length (st st' : store) (useRepos : list nat)
    (repos : list string) :
  Forall (fun p => p < length st) useRepos →
  RemoveRepoUsages st useRepos repos = Ok st' →
  length st' = length st.
Proof.
  intros Hvalid Hrun. unfold RemoveRepoUsages in Hrun.
  destruct (Nat.eqb (length useRepos) 0 || Nat.eqb (length repos) 0).
  - by injection Hrun as <-.
  - destruct (removeLoop_result st useRepos repos Hvalid) as (st2 & Hrun2 & Hl & _).
    rewrite Hrun in Hrun2. by injection Hrun2 as <-.
Qed.

Lemma removedNode_idemp (useRepos : list nat) (repos : list string) (p : nat)
    (c : CallExpr) :
  removedNode useRepos repos p (removedNode useRepos repos p c)
  = removedNode useRepos repos p c.
Proof.
  unfold removedNode. cbn [X List Pos]. f_equal.
  destruct (decide (p ∈ useRepos)); [|done]. apply withoutRepos_idemp.
Qed.

(** X4: removing the same repositories from the same statements a second
    time changes nothing. *)
Theorem RemoveRepoUsages_idempotent :
  ∀ (st st' : store) (useRepos : list nat) (repos : list string),
    Forall (fun p => p < length st) useRepos →
    RemoveRepoUsages st useRepos repos = Ok st' →
    RemoveRepoUsages st' useRepos repos = Ok st'.
Proof.
  intros st st' useRepos repos Hvalid Hrun.
  destruct (decide (useRepos = [])) as [->|Hu].
  { by injection Hrun as <-. }
  destruct (decide (repos = [])) as [->|Hr].
  { unfold RemoveRepoUsages in *. rewrite orb_true_r in *. by injection Hrun as <-. }
  destruct (RemoveRepoUsages_nodes st useRepos repos Hu Hr Hvalid) as (st1 & Hrun1 & Hst1).
  rewrite Hrun in Hrun1. injection Hrun1 as <-.
  assert (length st' = length st) as Hlen
    by (by apply (RemoveRepoUsages_length st st' useRepos repos)).
  destruct (RemoveRepoUsages_nodes st' useRepos repos Hu Hr) as (st2 & Hrun2 & Hst2).
  { by rewrite Hlen. }
  rewrite Hrun2. f_equal. apply list_eq. intros p.
  rewrite Hst2, Hst1. destruct (st !! p) as [c|]; [|done]. cbn.
  by rewrite removedNode_idemp.
Qed.

Lemma RemoveRepoUsages_idempotent_witness :
  Forall (fun p => p < length Examples.twoUseRepos) [1; 0; 1]
  ∧ RemoveRepoUsages Examples.twoUseRepos [1; 0; 1] ["c"; "z"]
    = Ok [mkCallExpr (Ident "use_repo") [Ident "p"; StringExpr "a"] 30;
          mkCallExpr (Ident "use_repo") [Ident "p"] 60]
  ∧ RemoveRepoUsages
      [mkCallExpr (Ident "use_repo") [Ident "p"; StringExpr "a"] 30;
       mkCallExpr (Ident "use_repo") [Ident "p"] 60] [1; 0; 1] ["c"; "z"]
    = Ok [mkCallExpr (Ident "use_repo") [Ident "p"; StringExpr "a"] 30;
          mkCallExpr (Ident "use_repo") [Ident "p"] 60].
Proof.
  assert (Forall (fun p => p < length Examples.twoUseRepos) [1; 0; 1]) as H1
    by (repeat constructor).
  assert (RemoveRepoUsages Examples.twoUseRepos [1; 0; 1] ["c"; "z"]
          = Ok [mkCallExpr (Ident "use_repo") [Ident "p"; StringExpr "a"] 30;
                mkCallExpr (Ident "use_repo") [Ident "p"] 60]) as H2
    by (vm_compute; reflexivity).
  do 2 (split; [assumption|]).
  exact (RemoveRepoUsages_idempotent Examples.twoUseRepos _ [1; 0; 1] ["c"; "z"] H1 H2).
Defined.

(** X5: adding a repository that no given statement imports, to a target
    that has its proxy reference, and removing it again gives back the
    statements as they were. *)
Theorem AddRepoUsages_RemoveRepoUsages_roundtrip :
  ∀ (st : store) (useRepos : list nat) (target : nat) (x : string),
    useRepos ≠ [] →
    Forall (fun p => p < length st) useRepos →
    getLastUseRepo st useRepos = Ok (Some target) →
    argsAt st target ≠ [] →
    x ∉ existingRepos st useRepos →
    ∃ st1,
      AddRepoUsages st useRepos [x] = Ok st1
      ∧ RemoveRepoUsages st1 useRepos [x] = Ok st.
Proof.
  intros st useRepos target x Hne Hvalid Ht Hargs Hx.
  destruct (AddRepoUsages_result st useRepos [x] Hne Hvalid)
    as (t & c & Ht' & Hin & Hc & Hrun).
  rewrite Ht in Ht'. injection Ht' as <-.
  eexists. split; [exact Hrun|].
  assert (target < length st) as Hlt by (by eapply lookup_lt_Some).
  assert (argsAt st target = List c) as HList by (unfold argsAt; by rewrite Hc).
  assert (addedArgs (list_to_set (existingRepos st useRepos)) [x] = [StringExpr x]) as ->.
  { unfold addedArgs. rewrite filter_cons_True, filter_nil; [done|].
    by rewrite elem_of_list_to_set. }
  set (c1 := mkCallExpr (X c) (List c ++ [StringExpr x]) (Pos c)).
  destruct (RemoveRepoUsages_nodes (<[target := c1]> st) useRepos [x] Hne) as (st2 & Hrun2 & Hst2);
    [done|by rewrite length_insert|].
  rewrite Hrun2. f_equal. apply list_eq. intros p. rewrite Hst2.
  assert (∀ q, q ∈ useRepos → withoutRepos [x] (argsAt st q) = argsAt st q) as Hkeep.
  { intros q Hq. apply withoutRepos_id. intros y Hy Hyx.
    apply list_elem_of_singleton in Hyx as ->.
    apply Hx. by apply (existingRepos_elem _ _ q). }
  destruct (decide (p = target)) as [->|Hp].
  - rewrite list_lookup_insert_eq by done. rewrite Hc. cbn. f_equal.
    unfold removedNode, c1. cbn [X List Pos]. rewrite decide_True by done.
    specialize (Hkeep target Hin). rewrite HList in Hkeep, Hargs.
    destruct c as [x0 l z]. cbn [X List Pos] in *. f_equal.
    destruct l as [|ext later]; [done|]. cbn [app withoutRepos] in *.
    injection Hkeep as Hkeep. f_equal.
    rewrite filter_app, Hkeep.
    rewrite filter_cons_False, filter_nil, app_nil_r; [done|].
    cbn. intros Hout. apply Hout. by left.
  - rewrite list_lookup_insert_ne by done.
    destruct (st !! p) as [cp|] eqn:Hcp; [|done]. cbn. f_equal.
    unfold removedNode. destruct (decide (p ∈ useRepos)) as [Hq|Hq].
    + specialize (Hkeep p Hq). unfold argsAt in Hkeep. rewrite Hcp in Hkeep.
      rewrite Hkeep. by destruct cp.
    + by destruct cp.
Qed.

Lemma AddRepoUsages_RemoveRepoUsages_roundtrip_witness :
  [0; 1] ≠ []
  ∧ Forall (fun p => p < length Examples.twoUseRepos) [0; 1]
  ∧ getLastUseRepo Examples.twoUseRepos [0; 1] = Ok (Some 1)
  ∧ argsAt Examples.twoUseRepos 1 ≠ []
  ∧ ("x" ∉ existingRepos Examples.twoUseRepos [0; 1])
  ∧ ∃ st1,
      AddRepoUsages Examples.twoUseRepos [0; 1] ["x"] = Ok st1
      ∧ RemoveRepoUsages st1 [0; 1] ["x"] = Ok Examples.twoUseRepos.
Proof.
  assert ([0; 1] ≠ []) as H1 by discriminate.
  assert (Forall (fun p => p < length Examples.twoUseRepos) [0; 1]) as H2
    by (repeat constructor).
  assert (getLastUseRepo Examples.twoUseRepos [0; 1] = Ok (Some 1)) as H3 by reflexivity.
  assert (argsAt Examples.twoUseRepos 1 ≠ []) as H4 by discriminate.
  assert ("x" ∉ existingRepos Examples.twoUseRepos [0; 1]) as H5 by by_evaluation.
  do 5 (split; [assumption|]).
  exact (AddRepoUsages_RemoveRepoUsages_roundtrip
           Examples.twoUseRepos [0; 1] 1 "x" H1 H2 H3 H4 H5).
Defined.

(** X6: among statements that exist, [getLastUseRepo] returns one of
    them, and none of them ends behind it. *)
Theorem getLastUseRepo_textually_last :
  ∀ (st : store) (useRepos : list nat),
    useRepos ≠ [] →
    Forall (fun p => p < length st) useRepos →
    ∃ target ct,
      getLastUseRepo st useRepos = Ok (Some target)
      ∧ target ∈ useRepos
      ∧ st !! target = Some ct
      ∧ ∀ p c, p ∈ useRepos → st !! p = Some c → (Pos c ≤ Pos ct)%Z.
Proof.
  intros st useRepos Hne Hvalid.
  destruct (getLastUseRepo_total st useRepos Hne Hvalid) as (target & Ht & Hin & Hlt).
  destruct (valid_lookup _ _ Hlt) as [ct Hct].
  exists target, ct. do 3 (split; [done|]).
  intros p c Hp Hc. by apply (getLastUseRepo_last st useRepos target p c ct).
Qed.

Lemma getLastUseRepo_textually_last_witness :
  [1; 0; 1] ≠ []
  ∧ Forall (fun p => p < length Examples.twoUseRepos) [1; 0; 1]
  ∧ ∃ target ct,
      getLastUseRepo Examples.twoUseRepos [1; 0; 1] = Ok (Some target)
      ∧ target ∈ [1; 0; 1]
      ∧ Examples.twoUseRepos !! target = Some ct
      ∧ ∀ p c, p ∈ [1; 0; 1] → Examples.twoUseRepos !! p = Some c → (Pos c ≤ Pos ct)%Z.
Proof.
  assert ([1; 0; 1] ≠ []) as H1 by discriminate.
  assert (Forall (fun p => p < length Examples.twoUseRepos) [1; 0; 1]) as H2
    by (repeat constructor).
  do 2 (split; [assumption|]).
  exact (getLastUseRepo_textually_last Examples.twoUseRepos [1; 0; 1] H1 H2).
Defined.

(** ** The [use_repo] calls of the given proxies *)

Lemma UseReposLoop_step (stmt : Expr) (rest : list Expr) (proxiesSet : gset string)
    (useRepos : list CallExpr) :
  UseReposLoop (stmt :: rest) proxiesSet useRepos
  = UseReposLoop rest proxiesSet
      (useRepos ++ match useRepoIn proxiesSet stmt with Some call => [call] | None => [] end).
Proof.
  cbn [UseReposLoop]. unfold useRepoIn.
  destruct stmt as [| | | | | |call|]; try by rewrite app_nil_r.
  destruct (X call) as [|fn| | | | | |]; try by rewrite app_nil_r.
  destruct (negb (String.eqb fn "use_repo") || (length (List call) <? 1));
    [by rewrite app_nil_r|].
  destruct (List call) as [|[|p| | | | | |] later]; try by rewrite app_nil_r.
  destruct (bool_decide (p ∈ proxiesSet)); [done|by rewrite app_nil_r].
Qed.

Lemma UseReposLoop_omap (stmts : list Expr) (proxiesSet : gset string)
    (useRepos : list CallExpr) :
  UseReposLoop stmts proxiesSet useRepos = useRepos ++ omap (useRepoIn proxiesSet) stmts.
Proof.
  revert useRepos. induction stmts as [|stmt rest IH]; intros useRepos.
  - cbn. by rewrite app_nil_r.
  - rewrite UseReposLoop_step, IH. cbn [omap list_omap].
    destruct (useRepoIn proxiesSet stmt); [by rewrite <- app_assoc|].
    by rewrite app_nil_r.
Qed.

Lemma useRepoIn_Some (proxies : list string) (stmt : Expr) (call : CallExpr) :
  useRepoIn (list_to_set proxies) stmt = Some call
  ↔ stmt = Call call ∧ isUseRepoOf proxies call.
Proof.
  unfold useRepoIn, isUseRepoOf. split.
  - destruct stmt as [| | | | | |c|]; try done.
    destruct c as [x l z]. cbn [X List].
    destruct x as [|fn| | | | | |]; try done.
    destruct (String.eqb fn "use_repo") eqn:Efn; cbn [negb orb]; [|done].
    apply eqb_string_true in Efn as ->.
    destruct l as [|[|p| | | | | |] later]; try done. cbn [length Nat.ltb Nat.leb].
    case_bool_decide as Hp; [|done]. intros [= <-].
    split; [done|]. split; [done|]. exists p, later.
    split; [done|]. by apply elem_of_list_to_set in Hp.
  - intros (-> & HX & p & later & HL & Hp). rewrite HX, HL.
    cbn [String.eqb Ascii.eqb Bool.eqb negb orb length Nat.ltb Nat.leb andb].
    rewrite bool_decide_eq_true_2; [done|]. by apply elem_of_list_to_set.
Qed.

Lemma UseRepos_elem (f : File) (proxies : list string) (call : CallExpr) :
  call ∈ UseRepos f proxies ↔ Call call ∈ Stmt f ∧ isUseRepoOf proxies call.
Proof.
  unfold UseRepos. rewrite UseReposLoop_omap. cbn [app].
  rewrite list_elem_of_omap. split.
  - intros (stmt & Hin & Hsome). apply useRepoIn_Some in Hsome as [-> His]. done.
  - intros [Hin His]. exists (Call call). split; [done|]. by apply useRepoIn_Some.
Qed.


(** The calls [UseRepos] finds in the manifest with the calls of two
    proxies. *)
Example UseRepos_withUseRepos :
  UseRepos Examples.withUseRepos ["p"]
  = [mkCallExpr (Ident "use_repo") [Ident "p"; StringExpr "a"] 30;
     mkCallExpr (Ident "use_repo") [Ident "p"; Examples.keyword "b" (StringExpr "c")] 90].
Proof. vm_compute. reflexivity. Qed.

(** X8: on the calls that [UseRepos] returns, addressed by their place in
    the result, a second request to add the same repository changes
    nothing. *)
Theorem AddRepoUsages_on_UseRepos_idempotent :
  ∀ (f : File) (proxies : list string) (x : string) (st1 : store),
    UseRepos f proxies ≠ [] →
    AddRepoUsages (UseRepos f proxies) (seq 0 (length (UseRepos f proxies))) [x] = Ok st1 →
    AddRepoUsages st1 (seq 0 (length (UseRepos f proxies))) [x] = Ok st1.
Proof.
  intros f proxies x st1 Hne Hrun.
  set (st := UseRepos f proxies) in *.
  assert (seq 0 (length st) ≠ []) as Hptrs.
  { destruct st; [done|]. discriminate. }
  assert (Forall (fun p => p < length st) (seq 0 (length st))) as Hvalid.
  { apply Forall_forall. intros p Hp%elem_of_seq. lia. }
  destruct (getLastUseRepo_total st _ Hptrs Hvalid) as (target & Ht & _ & Hlt).
  apply (AddRepoUsages_idempotent st st1 _ target x Hptrs Hvalid Ht); [|done].
  destruct (valid_lookup _ _ Hlt) as [c Hc].
  unfold argsAt. rewrite Hc.
  assert (c ∈ UseRepos f proxies) as Hin by (by eapply list_elem_of_lookup_2).
  apply UseRepos_elem in Hin as [_ (_ & p & later & HL & _)]. by rewrite HL.
Qed.

Lemma AddRepoUsages_on_UseRepos_idempotent_witness :
  UseRepos Examples.withUseRepos ["p"] ≠ []
  ∧ AddRepoUsages (UseRepos Examples.withUseRepos ["p"])
      (seq 0 (length (UseRepos Examples.withUseRepos ["p"]))) ["x"]
    = Ok [mkCallExpr (Ident "use_repo") [Ident "p"; StringExpr "a"] 30;
          mkCallExpr (Ident "use_repo")
            [Ident "p"; Examples.keyword "b" (StringExpr "c"); StringExpr "x"] 90]
  ∧ AddRepoUsages
      [mkCallExpr (Ident "use_repo") [Ident "p"; StringExpr "a"] 30;
       mkCallExpr (Ident "use_repo")
         [Ident "p"; Examples.keyword "b" (StringExpr "c"); StringExpr "x"] 90]
      (seq 0 (length (UseRepos Examples.withUseRepos ["p"]))) ["x"]
    = Ok [mkCallExpr (Ident "use_repo") [Ident "p"; StringExpr "a"] 30;
          mkCallExpr (Ident "use_repo")
            [Ident "p"; Examples.keyword "b" (StringExpr "c"); StringExpr "x"] 90].
Proof.
  assert (UseRepos Examples.withUseRepos ["p"] ≠ []) as H1 by (vm_compute; discriminate).
  assert (AddRepoUsages (UseRepos Examples.withUseRepos ["p"])
            (seq 0 (length (UseRepos Examples.withUseRepos ["p"]))) ["x"]
          = Ok [mkCallExpr (Ident "use_repo") [Ident "p"; StringExpr "a"] 30;
                mkCallExpr (Ident "use_repo")
                  [Ident "p"; Examples.keyword "b" (StringExpr "c"); StringExpr "x"] 90]) as H2
    by (vm_compute; reflexivity).
  do 2 (split; [assumption|]).
  exact (AddRepoUsages_on_UseRepos_idempotent Examples.withUseRepos ["p"] "x" _ H1 H2).
Defined.

(** ** The result of [NewUseRepo] *)

Lemma last_usage_cases (proxiesSet : gset string) (stmts : list Expr) :
  (∀ stmt, stmt ∈ stmts → usageIn proxiesSet stmt = None)
  ∨ ∃ k stmt p,
      stmts !! k = Some stmt
      ∧ usageIn proxiesSet stmt = Some p
      ∧ ∀ j stmt', k < j → stmts !! j = Some stmt' → usageIn proxiesSet stmt' = None.
Proof.
  induction stmts as [|s rest IH].
  - left. intros stmt Hin. by apply elem_of_nil in Hin.
  - destruct IH as [Hnone|(k & stmt & p & Hk & Hp & Hafter)].
    + destruct (usageIn proxiesSet s) as [p|] eqn:Hs.
      * right. exists 0, s, p. do 2 (split; [done|]).
        intros [|j] stmt' Hj Hl; [lia|]. apply Hnone.
        by eapply list_elem_of_lookup_2.
      * left. intros stmt [->|Hin]%elem_of_cons; [done|by apply Hnone].
    + right. exists (S k), stmt, p. do 2 (split; [done|]).
      intros [|j] stmt' Hj Hl; [lia|]. apply (Hafter j); [lia|done].
Qed.

Lemma usageIn_proxy (proxies : list string) (stmt : Expr) (p : string) :
  usageIn (list_to_set proxies) stmt = Some p → p ∈ proxies ∧ p ≠ "".
Proof.
  intros [Hin Huse]%usageIn_Some. split; [done|].
  by destruct Huse as [[Hne _]|[Hne _]].
Qed.

(** What [lastProxyUsage] returns: [-1] without usage, and otherwise the
    index of a statement and a proxy among the given ones. *)
Lemma lastProxyUsage_cases (f : File) (proxies : list string) :
  (lastProxyUsage f proxies = ((-1)%Z, "")
   ∧ ∀ stmt, stmt ∈ Stmt f → usageIn (list_to_set proxies) stmt = None)
  ∨ ∃ k stmt p,
      lastProxyUsage f proxies = (Z.of_nat k, p)
      ∧ Stmt f !! k = Some stmt
      ∧ usageIn (list_to_set proxies) stmt = Some p.
Proof.
  unfold lastProxyUsage.
  destruct (last_usage_cases (list_to_set proxies) (Stmt f))
    as [Hnone|(k & stmt & p & Hk & Hp & Hafter)].
  - left. split; [|done]. by apply lastProxyUsageLoop_none.
  - right. exists k, stmt, p. split; [|done].
    rewrite (lastProxyUsageLoop_last _ k stmt p) by done. f_equal.
Qed.

(** X9: on a file whose statement slice lies within its array,
    [NewUseRepo] does not panic: either it returns the heap and the file
    it was given and no call, or a call [use_repo(p)] for a non-empty
    proxy [p] among those given and a file with one statement more. *)
Theorem NewUseRepo_returns :
  ∀ (growslice : nat → nat → nat) (h : heap) (f : FileObj) (proxies : list string),
    slice_ok h (objStmt f) →
    NewUseRepo growslice h f proxies = Ok (h, f, None)
    ∨ ∃ h' f' p,
        NewUseRepo growslice h f proxies = Ok (h', f', Some (useRepoCall p))
        ∧ p ∈ proxies ∧ p ≠ ""
        ∧ length (contents h' (objStmt f')) = S (length (contents h (objStmt f))).
Proof.
  intros growslice h f proxies Hok.
  destruct (lastProxyUsage_cases (load h f) proxies)
    as [[Hlast _]|(k & stmt & p & Hlast & Hk & Hp)].
  - left. by apply (NewUseRepo_no_usage _ _ _ _ "").
  - right. cbn [load Stmt] in Hk.
    assert (k < length (contents h (objStmt f))) as Hlt by (by eapply lookup_lt_Some).
    destruct (NewUseRepo_insert growslice h f proxies k p Hok Hlast)
      as (h' & f' & Hrun & Hc & _).
    { by rewrite <- (contents_length h). }
    exists h', f', p. split; [done|].
    destruct (usageIn_proxy _ _ _ Hp) as [Hin Hne]. do 2 (split; [done|]).
    rewrite Hc, !length_app, length_take, length_drop. cbn [length]. lia.
Qed.

Lemma NewUseRepo_returns_witness :
  slice_ok Examples.spareHeap (objStmt Examples.spareFile)
  ∧ (NewUseRepo Examples.doubling Examples.spareHeap Examples.spareFile ["p"]
     = Ok (Examples.spareHeap, Examples.spareFile, None)
     ∨ ∃ h' f' p,
         NewUseRepo Examples.doubling Examples.spareHeap Examples.spareFile ["p"]
         = Ok (h', f', Some (useRepoCall p))
         ∧ p ∈ ["p"] ∧ p ≠ ""
         ∧ length (contents h' (objStmt f'))
           = S (length (contents Examples.spareHeap (objStmt Examples.spareFile)))).
Proof.
  assert (slice_ok Examples.spareHeap (objStmt Examples.spareFile)) as H1
    by (vm_compute; lia).
  split; [assumption|].
  exact (NewUseRepo_returns Examples.doubling Examples.spareHeap Examples.spareFile ["p"] H1).
Defined.

(** X10: the call that [NewUseRepo] returns is among the calls that
    [UseRepos] finds for the same proxies in the file it returns. *)
Theorem UseRepos_finds_new_call :
  ∀ (growslice : nat → nat → nat) (h h' : heap) (f f' : FileObj)
    (proxies : list string) (useRepo : CallExpr),
    slice_ok h (objStmt f) →
    NewUseRepo growslice h f proxies = Ok (h', f', Some useRepo) →
    useRepo ∈ UseRepos (load h' f') proxies.
Proof.
  intros growslice h h' f f' proxies useRepo Hok Hrun.
  destruct (lastProxyUsage_cases (load h f) proxies)
    as [[Hlast _]|(k & stmt & p & Hlast & Hk & Hp)].
  - rewrite (NewUseRepo_no_usage _ _ _ _ _ Hlast) in Hrun. discriminate.
  - cbn [load Stmt] in Hk.
    assert (k < length (contents h (objStmt f))) as Hlt by (by eapply lookup_lt_Some).
    destruct (NewUseRepo_insert growslice h f proxies k p Hok Hlast)
      as (h1 & f1 & Hrun1 & Hc & _).
    { by rewrite <- (contents_length h). }
    rewrite Hrun1 in Hrun. injection Hrun as <- <- <-.
    apply UseRepos_elem. cbn [load Stmt]. split.
    + rewrite Hc. apply elem_of_app. right. by left.
    + split; [done|]. exists p, []. split; [done|].
      by destruct (usageIn_proxy _ _ _ Hp).
Qed.

Lemma UseRepos_finds_new_call_witness :
  slice_ok Examples.fullHeap (objStmt Examples.fullFile)
  ∧ ∃ h' f',
      NewUseRepo Examples.doubling Examples.fullHeap Examples.fullFile ["q"; "p"]
      = Ok (h', f', Some (useRepoCall "p"))
      ∧ useRepoCall "p" ∈ UseRepos (load h' f') ["q"; "p"].
Proof.
  assert (slice_ok Examples.fullHeap (objStmt Examples.fullFile)) as H1
    by (vm_compute; lia).
  split; [assumption|].
  eexists _, _.
  assert (NewUseRepo Examples.doubling Examples.fullHeap Examples.fullFile ["q"; "p"]
          = Ok (_, _, Some (useRepoCall "p"))) as H2 by (vm_compute; reflexivity).
  split; [exact H2|].
  exact (UseRepos_finds_new_call Examples.doubling Examples.fullHeap _ Examples.fullFile _
           ["q"; "p"] (useRepoCall "p") H1 H2).
Defined.

(** With room behind the statements, the whole insertion happens in the
    array of [f.Stmt]: the slice returned starts where [f.Stmt] starts. *)
Lemma NewUseRepo_in_place (growslice : nat → nat → nat) (h : heap) (f : FileObj)
    (proxies : list string) (k : nat) (p : string) :
  slice_ok h (objStmt f) →
  lastProxyUsage (load h f) proxies = (Z.of_nat k, p) →
  k < len (objStmt f) →
  len (objStmt f) < cap (objStmt f) →
  ∃ h' f',
    NewUseRepo growslice h f proxies = Ok (h', f', Some (useRepoCall p))
    ∧ array (objStmt f') = array (objStmt f)
    ∧ offset (objStmt f') = offset (objStmt f)
    ∧ len (objStmt f') = S (len (objStmt f)).
Proof.
  intros Hok Hlast Hk Hroom. pose proof Hok as (Harr & Hlen & Hcap).
  unfold NewUseRepo. rewrite Hlast.
  replace (Z.of_nat k =? -1)%Z with false by (symmetry; apply Z.eqb_neq; lia).
  replace (Z.to_nat (Z.of_nat k + 1)) with (S k) by lia.
  fold (useRepoCall p). set (s := objStmt f) in *.
  unfold sliceTo. rewrite bool_decide_eq_true_2 by lia. cbn [bind].
  unfold literal. unfold sliceFrom. rewrite bool_decide_eq_true_2 by lia. cbn [bind].
  set (h1 := h ++ [[Call (useRepoCall p)]]).
  set (lit := mkSlice (length h) 0 (length [Call (useRepoCall p)])
                (length [Call (useRepoCall p)])).
  set (head := mkSlice (array s) (offset s) (S k) (cap s)).
  set (tail := mkSlice (array s) (offset s + S k) (len s - S k) (cap s - S k)).
  assert (contents h1 tail = drop (S k) (contents h s)) as ->.
  { rewrite <- (contents_sliceFrom h s (S k)) by lia.
    apply contents_frame. by apply cells_app_old. }
  assert (slice_ok h1 lit) as Hlit.
  { unfold slice_ok, lit, h1. cbn [array offset len cap length].
    rewrite cells_app_new, length_app. cbn [length]. lia. }
  assert (contents h1 lit = [Call (useRepoCall p)]) as Hlitc
    by apply contents_literal_eq.
  destruct (append growslice h1 lit (drop (S k) (contents h s))) as [h2 inner] eqn:Einner.
  destruct (append_spec _ _ _ _ _ _ Hlit Einner) as (Hinner & _).
  assert (length (contents h2 inner) = S (len s - S k)) as Hinlen.
  { rewrite Hinner, Hlitc, length_app, length_drop, (contents_length h s) by done.
    cbn [length]. lia. }
  rewrite append_in_place by (cbn [len cap head]; lia).
  eexists _, _. split; [reflexivity|]. cbn [objStmt array offset len head].
  do 2 (split; [done|]). lia.
Qed.

(** X11: what the file passed to [NewUseRepo] shows after an insertion.
    When the array behind its statements has room, they are the first
    statements of the returned file, one fewer than it has: the call
    inserted and the statements behind it have moved into the file
    passed in.  Without room they are as before. *)
Theorem NewUseRepo_original_statements :
  ∀ (growslice : nat → nat → nat) (h h' : heap) (f f' : FileObj)
    (proxies : list string) (useRepo : CallExpr),
    slice_ok h (objStmt f) →
    NewUseRepo growslice h f proxies = Ok (h', f', Some useRepo) →
    contents h' (objStmt f)
    = if decide (len (objStmt f) < cap (objStmt f))
      then take (len (objStmt f)) (contents h' (objStmt f'))
      else contents h (objStmt f).
Proof.
  intros growslice h h' f f' proxies useRepo Hok Hrun.
  destruct (lastProxyUsage_cases (load h f) proxies)
    as [[Hlast _]|(k & stmt & p & Hlast & Hk & Hp)].
  { rewrite (NewUseRepo_no_usage _ _ _ _ _ Hlast) in Hrun. discriminate. }
  cbn [load Stmt] in Hk.
  assert (k < len (objStmt f)) as Hlt.
  { rewrite <- (contents_length h) by done. by eapply lookup_lt_Some. }
  destruct (decide (len (objStmt f) < cap (objStmt f))) as [Hroom|Hfull].
  - destruct (NewUseRepo_in_place growslice h f proxies k p Hok Hlast Hlt Hroom)
      as (h1 & f1 & Hrun1 & Ha & Ho & Hl).
    rewrite Hrun1 in Hrun. injection Hrun as <- <- _.
    unfold contents. rewrite Ha, Ho, Hl, take_take. f_equal. lia.
  - destruct (NewUseRepo_insert growslice h f proxies k p Hok Hlast Hlt)
      as (h1 & f1 & Hrun1 & _ & _ & _ & Hkeep).
    rewrite Hrun1 in Hrun. injection Hrun as <- _ _.
    apply Hkeep. destruct Hok as (_ & Hle & _). lia.
Qed.

Lemma NewUseRepo_original_statements_witness :
  slice_ok Examples.spareHeap (objStmt Examples.spareFile)
  ∧ ∃ h' f',
      NewUseRepo Examples.doubling Examples.spareHeap Examples.spareFile ["p"]
      = Ok (h', f', Some (useRepoCall "p"))
      ∧ contents h' (objStmt Examples.spareFile)
        = if decide (len (objStmt Examples.spareFile) < cap (objStmt Examples.spareFile))
          then take (len (objStmt Examples.spareFile)) (contents h' (objStmt f'))
          else contents Examples.spareHeap (objStmt Examples.spareFile).
Proof.
  assert (slice_ok Examples.spareHeap (objStmt Examples.spareFile)) as H1
    by (vm_compute; lia).
  split; [assumption|].
  eexists _, _.
  assert (NewUseRepo Examples.doubling Examples.spareHeap Examples.spareFile ["p"]
          = Ok (_, _, Some (useRepoCall "p"))) as H2 by (vm_compute; reflexivity).
  split; [exact H2|].
  exact (NewUseRepo_original_statements Examples.doubling Examples.spareHeap _
           Examples.spareFile _ ["p"] (useRepoCall "p") H1 H2).
Defined.

(** ** Groups of proxies *)

Section Groups.
Context `{Collaborators}.


Lemma proxyGroup_find (f : File) (p : string) (stmt : Expr) :
  stmt ∈ Stmt f → definesProxy stmt p →
  ∃ i s, list_find (fun s => definesProxy s p) (Stmt f) = Some (i, s)
         ∧ Stmt f !! i = Some s ∧ definesProxy s p.
Proof.
  intros Hin Hdef.
  destruct (list_find (fun s => definesProxy s p) (Stmt f)) as [[i s]|] eqn:E.
  - exists i, s. split; [done|]. by apply list_find_Some in E as (? & ? & _).
  - apply list_find_None in E. rewrite Forall_forall in E. by destruct (E stmt Hin).
Qed.

(** X13: a non-empty proxy that a [use_extension] assignment of the
    manifest defines belongs to the proxies [AllProxies] returns for it. *)
Theorem AllProxies_contains_proxy :
  ∀ (f : File) (p : string) (stmt : Expr),
    stmt ∈ Stmt f → definesProxy stmt p → p ∈ AllProxies f p.
Proof.
  intros f p stmt Hin Hdef. pose proof Hdef as [Hp _].
  rewrite (AllProxies_group f p Hp). unfold proxyGroup.
  destruct (proxyGroup_find f p stmt Hin Hdef) as (i & s & -> & Hi & [_ Hs]).
  cbn zeta. destruct (isolate (parseUseExtension s)) eqn:Hiso; [by left|].
  apply list_elem_of_fmap. exists (parseUseExtension s). split; [done|].
  apply list_elem_of_filter. split.
  - unfold sameUsage. rewrite Hs. done.
  - apply list_elem_of_fmap. exists s. split; [done|].
    by eapply list_elem_of_lookup_2.
Qed.

(** X14: when no two [use_extension] assignments bind the same proxy,
    every proxy that [AllProxies] returns for a non-empty proxy has the
    same result itself: the results partition the proxies into groups. *)
Theorem AllProxies_same_group :
  ∀ (f : File) (p q : string),
    uniqueProxies f → p ≠ "" → q ∈ AllProxies f p →
    AllProxies f q = AllProxies f p.
Proof.
  intros f p q Huniq Hp Hq.
  rewrite (AllProxies_group f p Hp) in *. unfold proxyGroup in Hq |- *.
  destruct (list_find (fun s => definesProxy s p) (Stmt f)) as [[i s]|] eqn:Ep;
    [|by apply elem_of_nil in Hq].
  cbn zeta in *. set (u := parseUseExtension s) in *.
  destruct (isolate u) eqn:Hiso.
  { apply list_elem_of_singleton in Hq as ->.
    rewrite (AllProxies_group f p Hp). unfold proxyGroup. rewrite Ep. cbn zeta.
    fold u. by rewrite Hiso. }
  apply list_elem_of_fmap in Hq as (u' & -> & Hu').
  apply list_elem_of_filter in Hu' as [Hsame Hu'].
  apply list_elem_of_fmap in Hu' as (s' & -> & Hs').
  pose proof Hsame as (Hq & Hd & Hi & Hb & Hn).
  apply list_elem_of_lookup in Hs' as [j Hj].
  rewrite (AllProxies_group f _ Hq). unfold proxyGroup.
  destruct (proxyGroup_find f (proxy (parseUseExtension s')) s')
    as (j' & s'' & -> & Hj' & [_ Hs'']); [by eapply list_elem_of_lookup_2|done|].
  assert (j' = j) as ->.
  { apply (Huniq j' j s'' s' Hj' Hj); [by rewrite Hs''|done]. }
  rewrite Hj in Hj'. injection Hj' as <-. cbn zeta. rewrite Hi.
  f_equal. apply list_filter_iff. intros x. unfold sameUsage. fold u.
  rewrite Hd, Hb, Hn. done.
Qed.

End Groups.

Section GroupsOfSharedUsages.
#[local] Existing Instance SpecModel.collaborators.

Lemma AllProxies_contains_proxy_witness :
  Examples.useExtension "p2" "a.bzl" "e" [] ∈ Stmt Examples.sharedUsages
  ∧ definesProxy (Examples.useExtension "p2" "a.bzl" "e" []) "p2"
  ∧ "p2" ∈ AllProxies Examples.sharedUsages "p2".
Proof.
  assert (Examples.useExtension "p2" "a.bzl" "e" [] ∈ Stmt Examples.sharedUsages) as H1
    by (right; left).
  assert (definesProxy (Examples.useExtension "p2" "a.bzl" "e" []) "p2") as H2
    by (split; [discriminate|reflexivity]).
  do 2 (split; [assumption|]).
  exact (AllProxies_contains_proxy Examples.sharedUsages "p2" _ H1 H2).
Defined.

Lemma uniqueProxies_sharedUsages : uniqueProxies Examples.sharedUsages.
Proof.
  intros i j s s' Hi Hj Hne Heq.
  destruct i as [|[|[|i]]]; [| | |discriminate Hi];
    (destruct j as [|[|[|j]]]; [| | |discriminate Hj]);
    cbn in Hi, Hj; injection Hi as <-; injection Hj as <-;
    first [reflexivity | discriminate Heq].
Qed.

Lemma AllProxies_same_group_witness :
  uniqueProxies Examples.sharedUsages
  ∧ "p1" ≠ ""
  ∧ "p2" ∈ AllProxies Examples.sharedUsages "p1"
  ∧ AllProxies Examples.sharedUsages "p2" = AllProxies Examples.sharedUsages "p1".
Proof.
  assert ("p1" ≠ "") as H2 by discriminate.
  assert ("p2" ∈ AllProxies Examples.sharedUsages "p1") as H3.
  { destruct AllProxies_sharedUsages as [-> _]. right. left. }
  split; [exact uniqueProxies_sharedUsages|]. do 2 (split; [assumption|]).
  exact (AllProxies_same_group Examples.sharedUsages "p1" "p2"
           uniqueProxies_sharedUsages H2 H3).
Defined.

End GroupsOfSharedUsages.

(** ** The names collected from fragments *)

Section Names.
Context `{Collaborators}.

Lemma collectStep_nonempty (acc : gmap string string * list string) (dep : Rule) :
  (∀ k v, acc.1 !! k = Some v → k ≠ "" ∧ v ≠ "") →
  ∀ k v, (collectStep acc dep).1 !! k = Some v → k ≠ "" ∧ v ≠ "".
Proof.
  destruct acc as [apparentNames includeLabels]. cbn [fst]. intros Hacc.
  unfold collectStep.
  destruct (String.eqb (ExplicitName dep) "").
  { destruct (X (RuleCall dep)) as [|ident| | | | | |]; try done.
    destruct (negb (String.eqb ident "include")); [done|].
    by destruct (List (RuleCall dep)) as [|[| |str| | | | |] [|? ?]]. }
  destruct (negb (String.eqb (Kind dep) "module")
            && negb (String.eqb (Kind dep) "bazel_dep")); [done|].
  destruct (String.eqb (AttrString dep "name") "") eqn:En; cbn [negb]; [done|].
  apply eqb_string_false in En.
  destruct (String.eqb (AttrString dep "repo_name") "") eqn:Er; cbn [negb fst].
  - intros k v. rewrite lookup_insert. case_decide as Hk; [|apply Hacc].
    intros [= <-]. by subst k.
  - apply eqb_string_false in Er.
    intros k v. rewrite lookup_insert. case_decide as Hk; [|apply Hacc].
    intros [= <-]. by subst k.
Qed.

Lemma collectApparentNamesAndIncludes_entries (f : File) (k v : string) :
  (collectApparentNamesAndIncludes f).1 !! k = Some v → k ≠ "" ∧ v ≠ "".
Proof.
  revert k v. unfold collectApparentNamesAndIncludes.
  assert (∀ rules acc,
            (∀ k v, acc.1 !! k = Some v → k ≠ "" ∧ v ≠ "") →
            ∀ k v, (fold_left collectStep rules acc).1 !! k = Some v → k ≠ "" ∧ v ≠ "")
    as Hfold.
  { induction rules as [|dep rules IH]; intros acc Hacc; [done|].
    cbn [fold_left]. apply IH. by apply collectStep_nonempty. }
  apply Hfold. intros k v. cbn [fst]. by rewrite lookup_empty.
Qed.

(** X15: whatever the declarations of a fragment are,
    [collectApparentNamesAndIncludes] records no empty module name and no
    empty apparent name for it, so that an empty answer of the lookup
    always means that the module is unknown. *)
Theorem collectApparentNamesAndIncludes_nonempty :
  ∀ (f : File) (k : string),
    (collectApparentNamesAndIncludes f).1 !! k ≠ Some ""
    ∧ (collectApparentNamesAndIncludes f).1 !! "" = None.
Proof.
  intros f k. split.
  - intros Hk. by destruct (collectApparentNamesAndIncludes_entries f k "" Hk).
  - destruct ((collectApparentNamesAndIncludes f).1 !! "") as [v|] eqn:E; [|done].
    by destruct (collectApparentNamesAndIncludes_entries f "" v E).
Qed.

Variable fileReader : string → option File.

(** Where an entry of the merged mapping comes from: the last fragment
    read that declares the module. *)
Lemma mergedNames_lookup (reads : list string) (m : gmap string string)
    (k v : string) :
  mergedNames fileReader reads = Some m → m !! k = Some v →
  ∃ r1 p r2 bf,
    reads = r1 ++ p :: r2
    ∧ fileReader p = Some bf
    ∧ (collectApparentNamesAndIncludes bf).1 !! k = Some v
    ∧ ∀ q bf', q ∈ r2 → fileReader q = Some bf' →
               (collectApparentNamesAndIncludes bf').1 !! k = None.
Proof.
  revert m. induction reads as [|f reads IH] using rev_ind; intros m Hm Hk.
  - injection Hm as <-. by rewrite lookup_empty in Hk.
  - rewrite mergedNames_snoc in Hm.
    destruct (mergedNames fileReader reads) as [m0|]; [|done].
    destruct (fileReader f) as [bf|] eqn:Ef; [|done]. injection Hm as <-.
    apply lookup_union_Some_raw in Hk as [Hk|[Hnone Hk]].
    + exists reads, f, [], bf. do 3 (split; [done|]).
      intros q bf' Hq. by apply elem_of_nil in Hq.
    + destruct (IH m0 eq_refl Hk) as (r1 & p & r2 & bfp & -> & Hp & Hv & Hlater).
      exists r1, p, (r2 ++ [f]), bfp. split; [by rewrite <- app_assoc|].
      do 2 (split; [done|]).
      intros q bf' [Hq|Hq]%elem_of_app Hbf'; [by eapply Hlater|].
      apply list_elem_of_singleton in Hq as ->. rewrite Ef in Hbf'.
      by injection Hbf' as <-.
Qed.

Lemma mergedNames_declared (reads : list string) (m : gmap string string)
    (p : string) (bf : File) (k v : string) :
  mergedNames fileReader reads = Some m →
  p ∈ reads → fileReader p = Some bf →
  (collectApparentNamesAndIncludes bf).1 !! k = Some v →
  is_Some (m !! k).
Proof.
  revert m. induction reads as [|f reads IH] using rev_ind; intros m Hm Hp Hbf Hv.
  - by apply elem_of_nil in Hp.
  - rewrite mergedNames_snoc in Hm.
    destruct (mergedNames fileReader reads) as [m0|]; [|done].
    destruct (fileReader f) as [bff|] eqn:Ef; [|done]. injection Hm as <-.
    destruct ((collectApparentNamesAndIncludes bff).1 !! k) as [v'|] eqn:Ek.
    + exists v'. apply lookup_union_Some_raw. by left.
    + apply elem_of_app in Hp as [Hp|Hp].
      * destruct (IH m0 eq_refl Hp Hbf Hv) as [v0 Hv0].
        exists v0. apply lookup_union_Some_raw. by right.
      * apply list_elem_of_singleton in Hp as ->. rewrite Ef in Hbf.
        injection Hbf as <-. congruence.
Qed.

(** X16: an answer of the function that
    [ExtractModuleToApparentNameMapping] returns that is not empty is the
    apparent name that the last fragment read that declares the module
    records for it. *)
Theorem ExtractModuleToApparentNameMapping_last_declaration :
  ∀ (fuel : nat) (g : string → string) (moduleName : string),
    ExtractModuleToApparentNameMapping fuel fileReader = Some g →
    g moduleName ≠ "" →
    ∃ r1 p r2 bf,
      (collectApparentNames fuel fileReader "MODULE.bazel").2 = r1 ++ p :: r2
      ∧ fileReader p = Some bf
      ∧ (collectApparentNamesAndIncludes bf).1 !! moduleName = Some (g moduleName)
      ∧ ∀ q bf', q ∈ r2 → fileReader q = Some bf' →
                 (collectApparentNamesAndIncludes bf').1 !! moduleName = None.
Proof.
  intros fuel g moduleName Hg Hanswer.
  unfold ExtractModuleToApparentNameMapping in Hg.
  destruct (collectApparentNames_reads fileReader fuel "MODULE.bazel") as [_ Hmerged].
  destruct (collectApparentNames fuel fileReader "MODULE.bazel").1 as [|[m|]];
    [done| |]; injection Hg as <-; [|done].
  destruct (m !! moduleName) as [v|] eqn:Hv; [|done]. cbn.
  by apply (mergedNames_lookup _ m).
Qed.

(** X17: when a fragment that was read is missing, the function that
    [ExtractModuleToApparentNameMapping] returns answers with the empty
    string for every module. *)
Theorem ExtractModuleToApparentNameMapping_absent :
  ∀ (fuel : nat) (g : string → string) (p : string),
    ExtractModuleToApparentNameMapping fuel fileReader = Some g →
    p ∈ (collectApparentNames fuel fileReader "MODULE.bazel").2 →
    fileReader p = None →
    ∀ moduleName, g moduleName = "".
Proof.
  intros fuel g p Hg Hp Hnone moduleName.
  unfold ExtractModuleToApparentNameMapping in Hg.
  destruct (collectApparentNames_reads fileReader fuel "MODULE.bazel") as [_ Hmerged].
  assert (mergedNames fileReader (collectApparentNames fuel fileReader "MODULE.bazel").2
          = None) as Habsent by (apply mergedNames_None; by exists p).
  destruct (collectApparentNames fuel fileReader "MODULE.bazel").1 as [|[m|]];
    [done| |]; injection Hg as <-; [congruence|done].
Qed.

(** X18: when every fragment read was there, a module that one of them
    declares gets a non-empty answer from the function that
    [ExtractModuleToApparentNameMapping] returns. *)
Theorem ExtractModuleToApparentNameMapping_declared :
  ∀ (fuel : nat) (g : string → string) (p : string) (bf : File)
    (moduleName v : string),
    ExtractModuleToApparentNameMapping fuel fileReader = Some g →
    (∀ q, q ∈ (collectApparentNames fuel fileReader "MODULE.bazel").2 →
          is_Some (fileReader q)) →
    p ∈ (collectApparentNames fuel fileReader "MODULE.bazel").2 →
    fileReader p = Some bf →
    (collectApparentNamesAndIncludes bf).1 !! moduleName = Some v →
    g moduleName ≠ "".
Proof.
  intros fuel g p bf moduleName v Hg Hall Hp Hbf Hv.
  unfold ExtractModuleToApparentNameMapping in Hg.
  destruct (collectApparentNames_reads fileReader fuel "MODULE.bazel") as [_ Hmerged].
  destruct (mergedNames fileReader (collectApparentNames fuel fileReader "MODULE.bazel").2)
    as [m|] eqn:Em.
  2:{ apply mergedNames_None in Em as (q & Hq & Hnone).
      destruct (Hall q Hq) as [? ?]. congruence. }
  destruct (collectApparentNames fuel fileReader "MODULE.bazel").1 as [|result];
    [done|]. subst result. injection Hg as <-.
  destruct (mergedNames_declared _ m p bf moduleName v Em Hp Hbf Hv) as [v' Hv'].
  rewrite Hv'. cbn.
  destruct (mergedNames_lookup _ m moduleName v' Em Hv') as (_ & _ & _ & bf' & _ & _ & Hd & _).
  by destruct (collectApparentNamesAndIncludes_entries bf' moduleName v' Hd).
Qed.

End Names.

(** ** The paths the traversal reads *)

Section Paths.
Context `{Collaborators}.
Variable fileReader : string → option File.

Lemma includedFrom_more (relPath : string) (reads reads' : list string) (p : string) :
  (∀ q, q ∈ reads → q ∈ reads') →
  includedFrom fileReader relPath reads p → includedFrom fileReader relPath reads' p.
Proof.
  intros Hsub [->|(q & bf & Hq & Hbf & Hp)]; [by left|].
  right. exists q, bf. split; [by apply Hsub|done].
Qed.

Lemma collectLoop_included (relPath : string) (fuel : nat)
    (apparentNames : gmap string string) (seenFiles : gset string)
    (filesToProcess reads : list string) :
  (∀ p, p ∈ filesToProcess ++ reads → includedFrom fileReader relPath reads p) →
  let run := collectLoop fuel fileReader apparentNames seenFiles filesToProcess reads in
  (∀ p, p ∈ run.2 → includedFrom fileReader relPath run.2 p)
  ∧ ∃ more, run.2 = reads ++ more.
Proof.
  revert apparentNames seenFiles filesToProcess reads.
  induction fuel as [|fuel IH]; intros apparentNames seenFiles filesToProcess reads Hinv;
    cbn [collectLoop].
  - cbn [snd]. split; [|exists []; by rewrite app_nil_r].
    intros p Hp. apply Hinv, elem_of_app. by right.
  - destruct filesToProcess as [|f rest].
    { cbn [snd]. split; [|exists []; by rewrite app_nil_r].
      intros p Hp. apply Hinv, elem_of_app. by right. }
    case_bool_decide as Hf.
    { apply IH. intros p [Hp|Hp]%elem_of_app; apply Hinv.
      - apply elem_of_app. left. by right.
      - apply elem_of_app. by right. }
    assert (∀ p, p ∈ reads ++ [f] → includedFrom fileReader relPath (reads ++ [f]) p)
      as Hreads.
    { intros p Hp. apply (includedFrom_more relPath reads).
      - intros q Hq. apply elem_of_app. by left.
      - apply Hinv. apply elem_of_app in Hp as [Hp|Hp].
        + apply elem_of_app. by right.
        + apply list_elem_of_singleton in Hp as ->. left. }
    destruct (fileReader f) as [bf|] eqn:Ef.
    + destruct (collectApparentNamesAndIncludes bf) as [names includeLabels] eqn:Ec.
      destruct (IH (names ∪ apparentNames) ({[f]} ∪ seenFiles)
                  (rest ++ includePaths includeLabels) (reads ++ [f]))
        as [Hincl [more Hmore]].
      * intros p [[Hp|Hp]%elem_of_app|Hp]%elem_of_app; [| |by apply Hreads].
        -- apply (includedFrom_more relPath reads).
           ++ intros q Hq. apply elem_of_app. by left.
           ++ apply Hinv. apply elem_of_app. left. by right.
        -- right. exists f, bf. split; [apply elem_of_app; right; by left|].
           split; [done|]. unfold includesOf. by rewrite Ec.
      * split; [done|]. exists ([f] ++ more). by rewrite Hmore, <- app_assoc.
    + cbn [snd]. split; [done|]. by exists [f].
Qed.

Lemma collectLoop_extends (fuel : nat) (apparentNames : gmap string string)
    (seenFiles : gset string) (filesToProcess reads : list string) :
  ∃ more,
    (collectLoop fuel fileReader apparentNames seenFiles filesToProcess reads).2
    = reads ++ more.
Proof.
  revert apparentNames seenFiles filesToProcess reads.
  induction fuel as [|fuel IH]; intros apparentNames seenFiles filesToProcess reads;
    cbn [collectLoop].
  - exists []. by rewrite app_nil_r.
  - destruct filesToProcess as [|f rest]; [exists []; by rewrite app_nil_r|].
    case_bool_decide; [apply IH|].
    destruct (fileReader f) as [bf|]; [|by exists [f]].
    destruct (collectApparentNamesAndIncludes bf) as [names includeLabels].
    destruct (IH (names ∪ apparentNames) ({[f]} ∪ seenFiles)
                (rest ++ includePaths includeLabels) (reads ++ [f])) as [more Hmore].
    exists ([f] ++ more). by rewrite Hmore, <- app_assoc.
Qed.

(** X19: the traversal reads the root first, and every other path it
    reads is one that a fragment it has read includes. *)
Theorem collectApparentNames_reads_included :
  ∀ (fuel : nat) (relPath : string),
    (∀ p, p ∈ (collectApparentNames fuel fileReader relPath).2 →
          includedFrom fileReader relPath (collectApparentNames fuel fileReader relPath).2 p)
    ∧ ∃ more, (collectApparentNames (S fuel) fileReader relPath).2 = relPath :: more.
Proof.
  intros fuel relPath. split.
  - apply (collectLoop_included relPath fuel ∅ ∅ [relPath] []).
    intros p Hp. rewrite app_nil_r in Hp.
    apply list_elem_of_singleton in Hp as ->. by left.
  - unfold collectApparentNames. cbn [collectLoop].
    rewrite bool_decide_eq_false_2 by apply not_elem_of_empty.
    destruct (fileReader relPath) as [bf|]; [|by exists []].
    destruct (collectApparentNamesAndIncludes bf) as [names includeLabels].
    apply (collectLoop_extends fuel _ _ _ [relPath]).
Qed.

End Paths.

(** ** The names of concrete fragments *)

Section NamesOfFragments.
#[local] Existing Instance SpecModel.collaborators.

(** The answers for the two fragments that include each other. *)
Example ExtractModuleToApparentNameMapping_cycle :
  (λ g, (g "rules_go", g "rules_cc", g "rules_java"))
    <$> ExtractModuleToApparentNameMapping 8 Examples.cyclicReader
  = Some ("rules_go", "my_rules_cc", "").
Proof. vm_compute. reflexivity. Qed.

Lemma ExtractModuleToApparentNameMapping_last_declaration_witness :
  ∃ g,
    ExtractModuleToApparentNameMapping 8 Examples.cyclicReader = Some g
    ∧ g "rules_cc" ≠ ""
    ∧ ∃ r1 p r2 bf,
        (collectApparentNames 8 Examples.cyclicReader "MODULE.bazel").2 = r1 ++ p :: r2
        ∧ Examples.cyclicReader p = Some bf
        ∧ (collectApparentNamesAndIncludes bf).1 !! "rules_cc" = Some (g "rules_cc")
        ∧ ∀ q bf', q ∈ r2 → Examples.cyclicReader q = Some bf' →
                   (collectApparentNamesAndIncludes bf').1 !! "rules_cc" = None.
Proof.
  eexists.
  assert (ExtractModuleToApparentNameMapping 8 Examples.cyclicReader = Some _) as H1
    by reflexivity.
  split; [exact H1|].
  match type of H1 with _ = Some ?g => assert (g "rules_cc" ≠ "") as H2 end.
  { vm_compute. discriminate. }
  split; [exact H2|].
  exact (ExtractModuleToApparentNameMapping_last_declaration
           Examples.cyclicReader 8 _ "rules_cc" H1 H2).
Defined.

Lemma ExtractModuleToApparentNameMapping_absent_witness :
  ∃ g,
    ExtractModuleToApparentNameMapping 3 Examples.missingReader = Some g
    ∧ "tools/missing.MODULE.bazel"
        ∈ (collectApparentNames 3 Examples.missingReader "MODULE.bazel").2
    ∧ Examples.missingReader "tools/missing.MODULE.bazel" = None
    ∧ ∀ moduleName, g moduleName = "".
Proof.
  eexists.
  assert (ExtractModuleToApparentNameMapping 3 Examples.missingReader = Some _) as H1
    by reflexivity.
  assert ("tools/missing.MODULE.bazel"
            ∈ (collectApparentNames 3 Examples.missingReader "MODULE.bazel").2) as H2
    by by_evaluation.
  assert (Examples.missingReader "tools/missing.MODULE.bazel" = None) as H3
    by reflexivity.
  do 3 (split; [first [exact H1|assumption]|]).
  exact (ExtractModuleToApparentNameMapping_absent Examples.missingReader 3 _
           "tools/missing.MODULE.bazel" H1 H2 H3).
Defined.

Lemma ExtractModuleToApparentNameMapping_declared_witness :
  ∃ g bf,
    ExtractModuleToApparentNameMapping 8 Examples.cyclicReader = Some g
    ∧ (∀ q, q ∈ (collectApparentNames 8 Examples.cyclicReader "MODULE.bazel").2 →
            is_Some (Examples.cyclicReader q))
    ∧ "MODULE.bazel" ∈ (collectApparentNames 8 Examples.cyclicReader "MODULE.bazel").2
    ∧ Examples.cyclicReader "MODULE.bazel" = Some bf
    ∧ (collectApparentNamesAndIncludes bf).1 !! "rules_go" = Some "rules_go"
    ∧ g "rules_go" ≠ "".
Proof.
  eexists _, _.
  assert (ExtractModuleToApparentNameMapping 8 Examples.cyclicReader = Some _) as H1
    by reflexivity.
  assert (∀ q, q ∈ (collectApparentNames 8 Examples.cyclicReader "MODULE.bazel").2 →
               is_Some (Examples.cyclicReader q)) as H2.
  { intros q. rewrite collectApparentNames_cycle. cbn [snd].
    intros [->|[->|Hq%elem_of_nil]%elem_of_cons]%elem_of_cons; [by eexists|by eexists|done]. }
  assert ("MODULE.bazel" ∈ (collectApparentNames 8 Examples.cyclicReader "MODULE.bazel").2)
    as H3 by by_evaluation.
  assert (Examples.cyclicReader "MODULE.bazel" = Some _) as H4 by reflexivity.
  match type of H4 with
  | _ = Some ?bf =>
      assert ((collectApparentNamesAndIncludes bf).1 !! "rules_go" = Some "rules_go") as H5
        by (vm_compute; reflexivity)
  end.
  split; [exact H1|]. split; [exact H2|]. split; [exact H3|]. split; [exact H4|].
  split; [exact H5|].
  exact (ExtractModuleToApparentNameMapping_declared Examples.cyclicReader 8 _
           "MODULE.bazel" _ "rules_go" "rules_go" H1 H2 H3 H4 H5).
Defined.

End NamesOfFragments.

(** ** The last usage and the apparent module name *)


(** X21: the statements of the file passed to [NewUseRepo] all appear in
    the file it returns, in their order. *)
Theorem NewUseRepo_keeps_statements :
  ∀ (growslice : nat → nat → nat) (h h' : heap) (f f' : FileObj)
    (proxies : list string) (useRepo : option CallExpr),
    slice_ok h (objStmt f) →
    NewUseRepo growslice h f proxies = Ok (h', f', useRepo) →
    sublist (contents h (objStmt f)) (contents h' (objStmt f')).
Proof.
  intros growslice h h' f f' proxies useRepo Hok Hrun.
  destruct (lastProxyUsage_cases (load h f) proxies)
    as [[Hlast _]|(k & stmt & p & Hlast & Hk & Hp)].
  - rewrite (NewUseRepo_no_usage _ _ _ _ _ Hlast) in Hrun. by injection Hrun as <- <- _.
  - cbn [load Stmt] in Hk.
    assert (k < length (contents h (objStmt f))) as Hlt by (by eapply lookup_lt_Some).
    destruct (NewUseRepo_insert growslice h f proxies k p Hok Hlast)
      as (h1 & f1 & Hrun1 & Hc & _).
    { by rewrite <- (contents_length h). }
    rewrite Hrun1 in Hrun. injection Hrun as <- <- _. rewrite Hc.
    rewrite <- (take_drop (S k) (contents h (objStmt f))) at 1.
    apply sublist_app; [done|]. by apply sublist_cons.
Qed.

Lemma NewUseRepo_keeps_statements_witness :
  slice_ok Examples.roomHeap (objStmt Examples.roomFile)
  ∧ ∃ h' f',
      NewUseRepo Examples.doubling Examples.roomHeap Examples.roomFile ["p"]
      = Ok (h', f', Some (useRepoCall "p"))
      ∧ sublist (contents Examples.roomHeap (objStmt Examples.roomFile))
          (contents h' (objStmt f')).
Proof.
  assert (slice_ok Examples.roomHeap (objStmt Examples.roomFile)) as H1
    by (vm_compute; lia).
  split; [assumption|].
  eexists _, _.
  assert (NewUseRepo Examples.doubling Examples.roomHeap Examples.roomFile ["p"]
          = Ok (_, _, Some (useRepoCall "p"))) as H2 by (vm_compute; reflexivity).
  split; [exact H2|].
  exact (NewUseRepo_keeps_statements Examples.doubling Examples.roomHeap _
           Examples.roomFile _ ["p"] _ H1 H2).
Defined.

(** With room in the array but the last usage in the last statement, the
    new call is written behind the statements of the file passed in,
    which are as before. *)
Example NewUseRepo_roomFile :
  ∃ h' f',
    NewUseRepo Examples.doubling Examples.roomHeap Examples.roomFile ["p"]
    = Ok (h', f', Some (useRepoCall "p"))
    ∧ contents h' (objStmt Examples.roomFile)
      = contents Examples.roomHeap (objStmt Examples.roomFile)
    ∧ contents h' (objStmt f')
      = contents Examples.roomHeap (objStmt Examples.roomFile) ++ [Call (useRepoCall "p")].
Proof. eexists _, _. split; [vm_compute; reflexivity|]. split; reflexivity. Qed.

Section ApparentModuleName.
Context `{Collaborators}.

(** X22: the apparent module name of a manifest is empty exactly when
    none of its [module] declarations has a [repo_name] or a [name]. *)
Theorem getApparentModuleName_empty :
  ∀ f : File,
    getApparentModuleName f = ""
    ↔ ∀ module, module ∈ Rules f "module" →
                AttrString module "repo_name" = "" ∧ AttrString module "name" = "".
Proof.
  intros f. unfold getApparentModuleName.
  assert (∀ rules a,
            fold_left
              (fun apparentName module =>
                 let repoName := AttrString module "repo_name" in
                 if negb (String.eqb repoName "") then repoName
                 else
                   let name := AttrString module "name" in
                   if negb (String.eqb name "") then name else apparentName)
              rules a = ""
            ↔ a = "" ∧ ∀ module, module ∈ rules →
                         AttrString module "repo_name" = ""
                         ∧ AttrString module "name" = "") as Hfold.
  { induction rules as [|m rules IH]; intros a; cbn [fold_left].
    - split; [intros ->; split; [done|]|by intros [-> _]].
      intros module Hin. by apply elem_of_nil in Hin.
    - rewrite IH. cbn zeta.
      destruct (String.eqb (AttrString m "repo_name") "") eqn:Er; cbn [negb].
      + apply eqb_string_true in Er.
        destruct (String.eqb (AttrString m "name") "") eqn:En; cbn [negb].
        * apply eqb_string_true in En. split.
          -- intros [-> Hrest]. split; [done|].
             intros module [->|Hin]%elem_of_cons; [done|by apply Hrest].
          -- intros [-> Hall]. split; [done|].
             intros module Hin. apply Hall. by right.
        * apply eqb_string_false in En. split.
          -- by intros [? _].
          -- intros [_ Hall]. destruct (Hall m) as [_ ?]; [by left|done].
      + apply eqb_string_false in Er. split.
        * by intros [? _].
        * intros [_ Hall]. destruct (Hall m) as [? _]; [by left|done]. }
  rewrite Hfold. split; [by intros [_ ?]|done].
Qed.

End ApparentModuleName.
